(** * lean_gym: a Python connection to the lean-gym REPL

    Shallow embedding of [src/model/proofcheck/lean_gym.py] and the
    properties of its session protocol: command serialisation, the
    response decoder, the outstanding-command counter, the blocking
    [collect] loop, the connection life cycle and the scoped helper
    [invoke_lean]. *)

From Stdlib Require Import ZArith List Bool Lia String Ascii DecimalString.
From Stdlib Require Import DecimalPos DecimalZ.
From stdpp Require Import base gmap list.

Local Open Scope Z_scope.

(** ** Text

    A Python [str] is a sequence of Unicode code points.  A code point is
    a number; a text is the list of its code points. *)

Definition char := N.
Definition str := list char.

(** Text written in this file: the code points of an ASCII literal. *)
Definition lit (s : string) : str := map N_of_ascii (list_ascii_of_string s).

Definition DQ : char := 34%N.        (* the double quote *)
Definition SQ : char := 39%N.        (* the apostrophe *)
Definition BS : char := 92%N.        (* the backslash *)
Definition NL : char := 10%N.        (* the newline *)
Definition TAB : char := 9%N.
Definition CR : char := 13%N.
Definition SP : char := 32%N.
Definition COMMA : char := 44%N.
Definition COLON : char := 58%N.
Definition LBRACKET : char := 91%N.
Definition RBRACKET : char := 93%N.
Definition UNDERSCORE : char := 95%N.
Definition LETTER_n : char := 110%N.
Definition LBRACE : char := 123%N.
Definition RBRACE : char := 125%N.

(** Text with double quotes, written with apostrophes in their place. *)
Definition qlit (s : string) : str :=
  map (fun c => if N.eqb c SQ then DQ else c) (lit s).

Definition str_eqb (a b : str) : bool := bool_decide (a = b).

(** The longest prefix of [s] in the class [p], and what follows it. *)
Fixpoint leading (p : char -> bool) (s : str) : str :=
  match s with
  | c :: s' => if p c then c :: leading p s' else []
  | [] => []
  end.

Fixpoint after (p : char -> bool) (s : str) : str :=
  match s with
  | c :: s' => if p c then after p s' else s
  | [] => []
  end.

(** [s.startswith(p)] and the text after the prefix. *)
Fixpoint strip (p s : str) : option str :=
  match p with
  | [] => Some s
  | a :: p' =>
      match s with
      | [] => None
      | b :: s' => if N.eqb a b then strip p' s' else None
      end
  end.

(** [s.replace(old, new)] for a non-empty [old]: the occurrences of [old]
    are found from the left and do not overlap.  [skip] counts the
    characters of an occurrence that the scan still has to pass over. *)
Fixpoint replace_from (old new s : str) (skip : nat) : str :=
  match s with
  | [] => []
  | c :: s' =>
      match skip with
      | S k => replace_from old new s' k
      | O =>
          match strip old s with
          | Some _ => new ++ replace_from old new s' (Nat.pred (length old))
          | None => c :: replace_from old new s' O
          end
      end
  end.

Definition replace (old new s : str) : str := replace_from old new s O.

(** [sep.join(parts)]. *)
Fixpoint join (sep : str) (parts : list str) : str :=
  match parts with
  | [] => []
  | [p] => p
  | p :: rest => p ++ sep ++ join sep rest
  end.

(** [s.split(sep)] for a one-character separator: every occurrence
    splits, empty pieces are kept. *)
Fixpoint split (sep : char) (s : str) : list str :=
  match s with
  | [] => [[]]
  | c :: s' =>
      if N.eqb c sep then [] :: split sep s'
      else match split sep s' with
           | [] => [[c]]
           | p :: ps => (c :: p) :: ps
           end
  end.

(** Is [needle] a substring of [s] ([needle in s])? *)
Fixpoint contains (needle s : str) : bool :=
  match strip needle s with
  | Some _ => true
  | None => match s with [] => false | _ :: s' => contains needle s' end
  end.

(** A text between double quotes, a bracketed list of quoted texts, and
    a response line with a single field. *)
Definition quoted (x : str) : str := DQ :: x ++ [DQ].


Definition one_pair_line (key value : str) : str :=
  LBRACE :: quoted key ++ COLON :: value ++ [RBRACE].

(** ** Integers and text *)

Definition is_digit (c : char) : bool := (48 <=? c)%N && (c <=? 57)%N.

(** [str(n)] for an integer [n]. *)
Definition str_of_int (n : Z) : str := lit (NilZero.string_of_int (Z.to_int n)).

(** The value of a run of ASCII digits, read in base ten. *)
Definition digits_value (ds : str) : Z :=
  fold_left (fun acc d => 10 * acc + (Z.of_N d - 48)) ds 0.

Definition hexdigit (n : N) : char :=
  if (n <? 10)%N then (48 + n)%N else (87 + n)%N.

(** [n] written with [w] lower-case hexadecimal digits. *)
Fixpoint hex (w : nat) (n : N) : str :=
  match w with
  | O => []
  | S w' => hex w' (N.shiftr n 4) ++ [hexdigit (N.land n 15)]
  end.

(** ** The Unicode tables

    [\w] of [re] and [repr] of [str] consult the Unicode character
    database for the code points above the ASCII range.  The database is
    not part of the program; it is a parameter of the development. *)

Class UnicodeData := {
  unicode_alnum : char -> bool;       (* [str.isalnum] on one non-ASCII character *)
  unicode_printable : char -> bool    (* [str.isprintable] on one non-ASCII character *)
}.

Definition ascii_alnum (c : char) : bool :=
  is_digit c || ((65 <=? c)%N && (c <=? 90)%N) || ((97 <=? c)%N && (c <=? 122)%N).

(** ** Regular expressions

    The fragment of [re] that the program uses: literal text, character
    classes, greedy [*] and [+] on a class, sequence, ordered alternation
    and numbered groups.  Groups are counted from 0 here: [Group 0] is
    group 1 of Python. *)

Inductive regex :=
| Lit (s : str)
| Star (p : char -> bool)
| Plus (p : char -> bool)
| Seq (r1 r2 : regex)
| Alt (r1 r2 : regex)
| Group (i : nat) (r : regex).

(** The backtracking matcher, in continuation-passing style: [k] is what
    has to match after the current expression.  A greedy repetition first
    takes one more character and falls back to stopping when the rest
    fails. *)
Fixpoint star {A} (p : char -> bool) (s : str) (k : str -> option A) : option A :=
  match s with
  | c :: s' =>
      if p c then
        match star p s' k with
        | Some r => Some r
        | None => k s
        end
      else k s
  | [] => k []
  end.

Fixpoint rmatch {A} (r : regex) (s : str) (g : list str)
    (k : str -> list str -> option A) : option A :=
  match r with
  | Lit l => match strip l s with Some s' => k s' g | None => None end
  | Star p => star p s (fun s' => k s' g)
  | Plus p =>
      match s with
      | c :: s' => if p c then star p s' (fun s'' => k s'' g) else None
      | [] => None
      end
  | Seq r1 r2 => rmatch r1 s g (fun s' g' => rmatch r2 s' g' k)
  | Alt r1 r2 =>
      match rmatch r1 s g k with
      | Some x => Some x
      | None => rmatch r2 s g k
      end
  | Group i r1 =>
      rmatch r1 s g (fun s' g' => k s' (<[i := take (length s - length s') s]> g'))
  end.

(** [re.match(r, s)]: a match at the start of [s].  The result is the
    text left after the match and the groups; a group that took no part
    in the match is the empty text, as [findall] reports it. *)
Definition re_match (ngroups : nat) (r : regex) (s : str) : option (str * list str) :=
  rmatch r s (replicate ngroups []) (fun s' g => Some (s', g)).

(** [re.findall(r, s)]: the groups of the successive matches, scanning
    from the left; the search resumes where the previous match ended.
    [skip] counts the characters of the last match still to pass over.
    The patterns of the program match no empty text. *)
Fixpoint findall_from (ngroups : nat) (r : regex) (s : str) (skip : nat) : list (list str) :=
  match s with
  | [] =>
      match skip, re_match ngroups r [] with
      | O, Some (_, g) => [g]
      | _, _ => []
      end
  | c :: s' =>
      match skip with
      | S n => findall_from ngroups r s' n
      | O =>
          match re_match ngroups r s with
          | Some (rest, g) =>
              g :: findall_from ngroups r s' (Nat.pred (length s - length rest))
          | None => findall_from ngroups r s' O
          end
      end
  end.

Definition findall (ngroups : nat) (r : regex) (s : str) : list (list str) :=
  findall_from ngroups r s O.

(** ** Exceptions and results *)

Inductive exn :=
| ValueError (msg : str)
| OSError (msg : str)
| FileNotFoundError (what : str)
| IndexError (msg : str)
| OtherError (tag : N).          (* whatever else a caller's block raises *)

(** The result of a call: it returns, it raises, or it never comes back. *)
Inductive outcome (A : Type) :=
| Ret (a : A)
| Raise (e : exn)
| Hang.
Arguments Ret {A} a.
Arguments Raise {A} e.
Arguments Hang {A}.

(** ** Response records *)

Inductive value :=
| VNone                      (* [None] *)
| VInt (n : Z)
| VStr (s : str)
| VList (l : list str).

Abbreviation record := (gmap str value).

(** Values that the program renders with [str]: texts and lists. *)
#[warning="-register-all"]
Inductive pyval :=
| PStr (s : str)
| PList (l : list pyval).

(** ** The connection and what it owns

    [World] is the part of the Python process and of the operating system
    that one connection touches; [Self] holds the attributes of the
    [LeanGymConnection] object. *)

Record World := mkWorld {
  n_conns : Z;                         (* the class attribute [__n_conns] *)
  screen_found : bool;                 (* is the [screen] executable on the PATH *)
  files : gset str;                    (* the names of the existing files *)
  spawned : list (option str * list str);
                                       (* [subprocess.run] calls so far, oldest first:
                                          working directory and argument vector *)
  feed : list str                      (* what the coming [readline()] calls on the
                                          log return, in order; the empty text is
                                          the answer when nothing new is there; a
                                          read that fails, as on bytes that are no
                                          text, is not among them *)
}.

Record Self := mkSelf {
  closed : bool;                       (* [__closed] *)
  filename : str;                      (* [__filename] *)
  file_open : bool;                    (* [__file]: is the reader still open *)
  START : list str;
  QUERY : list str;
  EXIT : list str;
  queries : Z                          (* [__queries] *)
}.

Definition state := (Self * World)%type.

(** A method call: it runs on a state and leaves a state, whatever its
    outcome. *)
Definition M (A : Type) := state -> outcome A * state.

Definition bind {A B} (m : M A) (k : A -> M B) : M B :=
  fun st =>
    match m st with
    | (Ret a, st') => k a st'
    | (Raise e, st') => (Raise e, st')
    | (Hang, st') => (Hang, st')
    end.

Definition ret {A} (a : A) : M A := fun st => (Ret a, st).
Definition raise {A} (e : exn) : M A := fun st => (Raise e, st).

Notation "x <- m ;; k" := (bind m (fun x => k))
  (at level 90, m at next level, right associativity).
Notation "m ;;; k" := (bind m (fun _ => k))
  (at level 90, right associativity).

Definition set_closed (b : bool) : M unit :=
  fun '(s, w) =>
    (Ret tt, (mkSelf b (filename s) (file_open s) (START s) (QUERY s) (EXIT s) (queries s), w)).

Definition set_file_open (b : bool) : M unit :=
  fun '(s, w) =>
    (Ret tt, (mkSelf (closed s) (filename s) b (START s) (QUERY s) (EXIT s) (queries s), w)).

Definition set_queries (q : Z) : M unit :=
  fun '(s, w) =>
    (Ret tt, (mkSelf (closed s) (filename s) (file_open s) (START s) (QUERY s) (EXIT s) q, w)).

Definition with_feed (l : list str) (w : World) : World :=
  mkWorld (n_conns w) (screen_found w) (files w) (spawned w) l.

Definition set_feed (l : list str) : M unit :=
  fun '(s, w) => (Ret tt, (s, with_feed l w)).

(** The world after one more process was started. *)
Definition with_spawn (cwd : option str) (argv : list str) (w : World) : World :=
  mkWorld (n_conns w) (screen_found w) (files w) (spawned w ++ [(cwd, argv)]) (feed w).

(** [subprocess.run(argv, cwd=cwd)].  Every command of the program runs
    [screen]; the call raises when that executable is not found.  The
    working directory is recorded and not looked at: that it exists is
    taken for granted. *)
Definition subprocess_run (cwd : option str) (argv : list str) (w : World)
    : outcome unit * World :=
  if screen_found w then (Ret tt, with_spawn cwd argv w)
  else (Raise (FileNotFoundError (lit "screen")), w).

(** [os.remove(name)] *)
Definition os_remove (name : str) (w : World) : outcome unit * World :=
  if decide (name ∈ files w) then
    (Ret tt, mkWorld (n_conns w) (screen_found w) (files w ∖ {[name]}) (spawned w) (feed w))
  else (Raise (FileNotFoundError name), w).

Definition in_world {A} (f : World -> outcome A * World) : M A :=
  fun '(s, w) => let '(o, w') := f w in (o, (s, w')).

Definition connection_is_closed : exn := ValueError (lit "connection is closed").

(** ** Callers

    What a caller can do with a connection: the five public methods, in
    any order, looking at what each returns or raises. *)

Inductive call :=
| InitSearch (name : str) (namespaces : list str)
| RunTac (search_id tactic_state_id : Z) (tactic : str)
| ClearSearch (search_id : Z)
| Collect
| Close.

Inductive reply :=
| NoReply                        (* the method returned [None] *)
| Records (rs : list record).

(** A block of caller code: it returns, raises, or calls a method and
    goes on according to what the call returned or raised. *)
Inductive block (A : Type) :=
| Return (a : A)
| Throw (e : exn)
| Do (c : call) (k : exn + reply -> block A).
Arguments Return {A} a.
Arguments Throw {A} e.
Arguments Do {A} c k.

Section Program.
Context {U : UnicodeData}.

(** ** [repr] and [str] *)

(** One character of the [repr] of a text quoted with [quote]. *)
Definition repr_char (quote c : char) : str :=
  if N.eqb c quote || N.eqb c BS then [BS; c]
  else if N.eqb c TAB then [BS; 116%N]
  else if N.eqb c NL then [BS; 110%N]
  else if N.eqb c CR then [BS; 114%N]
  else if (c <? 32)%N || N.eqb c 127%N then BS :: 120%N :: hex 2 c
  else if (c <? 127)%N then [c]
  else if unicode_printable c then [c]
  else if (c <=? 255)%N then BS :: 120%N :: hex 2 c
  else if (c <=? 65535)%N then BS :: 117%N :: hex 4 c
  else BS :: 85%N :: hex 8 c.

(** [repr] quotes with the apostrophe, unless the text holds an
    apostrophe and no double quote. *)
Definition repr_quote (s : str) : char :=
  if existsb (N.eqb SQ) s && negb (existsb (N.eqb DQ) s) then DQ else SQ.

Definition repr_str (s : str) : str :=
  repr_quote s :: flat_map (repr_char (repr_quote s)) s ++ [repr_quote s].

Fixpoint repr (v : pyval) : str :=
  match v with
  | PStr s => repr_str s
  | PList l => LBRACKET :: join (lit ", ") (map repr l) ++ [RBRACKET]
  end.

(** [str(v)]: a text is itself, a list is its [repr]. *)
Definition py_str (v : pyval) : str :=
  match v with
  | PStr s => s
  | PList _ => repr v
  end.

(** [int(s)].  The program calls it on a run of ASCII digits, or on a
    text that holds a double quote, which [int] rejects; on any other
    text the model rejects too.  The number of digits is not bounded
    here; [int_limited] below has the bound of the interpreter. *)
Definition int_of_str (s : str) : outcome Z :=
  match s with
  | [] => Raise (ValueError (lit "invalid literal for int() with base 10: " ++ repr_str s))
  | _ :: _ =>
      if forallb is_digit s then Ret (digits_value s)
      else Raise (ValueError (lit "invalid literal for int() with base 10: " ++ repr_str s))
  end.

(** ** The response decoder *)

(** [\w] *)
Definition word_char (c : char) : bool :=
  (if (c <? 128)%N then ascii_alnum c else unicode_alnum c) || N.eqb c UNDERSCORE.

(** [[_\w]] *)
Definition key_char (c : char) : bool := N.eqb c UNDERSCORE || word_char c.

(** [[^...]] *)
Definition none_of (cs : list char) (c : char) : bool := negb (existsb (N.eqb c) cs).

(** The pattern of a key and its value.  With Q for the double quote it
    is [Q([_\w]+)Q:(null|\[[^\[\]]*\]|Q[^Q]*Q)]. *)
Definition pair_re : regex :=
  Seq (Lit [DQ]) (Seq (Group 0 (Plus key_char)) (Seq (Lit [DQ; COLON])
    (Group 1
       (Alt (Lit (lit "null"))
       (Alt (Seq (Lit [LBRACKET]) (Seq (Star (none_of [LBRACKET; RBRACKET])) (Lit [RBRACKET])))
            (Seq (Lit [DQ]) (Seq (Star (none_of [DQ])) (Lit [DQ])))))))).

(** The pattern of a quoted number, [Q[0-9]+Q]. *)
Definition int_re : regex := Seq (Lit [DQ]) (Seq (Plus is_digit) (Lit [DQ])).

(** The pattern of a quoted list item: Q, a group of any number of
    characters other than Q, and Q. *)
Definition item_re : regex := Seq (Lit [DQ]) (Seq (Group 0 (Star (none_of [DQ]))) (Lit [DQ])).

(** [s[1:-1]] *)
Definition inner (s : str) : str := removelast (tail s).

(** The newline escape of the wire: a backslash and the letter n. *)
Definition ESC_NL : str := [BS; LETTER_n].

(** What [run_tac] does to the tactic before it is sent. *)
Definition escape_newlines (tactic : str) : str := replace [NL] ESC_NL tactic.

(** What the decoder does to a text field. *)
Definition unescape_newlines (s : str) : str := replace ESC_NL [NL] s.

(** The body of the decoder's loop: the Python value of one encoded
    value. *)
Definition decode_value (v : str) : outcome value :=
  if str_eqb v (lit "null") then Ret VNone
  else
    match re_match 0 int_re v with
    | Some _ =>
        match int_of_str (inner v) with
        | Ret n => Ret (VInt n)
        | Raise e => Raise e
        | Hang => Hang
        end
    | None =>
        match v with
        | [] => Raise (IndexError (lit "string index out of range"))
        | c :: _ =>
            if N.eqb c DQ then Ret (VStr (unescape_newlines (inner v)))
            else Ret (VList (map (fun g => nth 0 g []) (findall 1 item_re v)))
        end
    end.

Fixpoint parse_pairs (pairs : list (list str)) (result : record) : outcome record :=
  match pairs with
  | [] => Ret result
  | g :: rest =>
      match decode_value (nth 1 g []) with
      | Ret v => parse_pairs rest (<[nth 0 g [] := v]> result)
      | Raise e => Raise e
      | Hang => Hang
      end
  end.

Definition parse_response (responce : str) : outcome record :=
  parse_pairs (findall 2 pair_re responce) ∅.

(** ** The methods *)

(** [__init__(path)]; [tmp] is the name that [NamedTemporaryFile] picks
    for the file it creates. *)
Definition init (path tmp : str) (w : World) : outcome Self * World :=
  let n := n_conns w + 1 in
  let w1 := mkWorld n (screen_found w) ({[tmp]} ∪ files w) (spawned w) (feed w) in
  let screen := lit "lean_repl" ++ str_of_int n in
  let start :=
    split SP (lit "screen -Logfile " ++ tmp ++ lit " -dmSL " ++ screen
              ++ lit " lean --run src/repl.lean") in
  let query := split SP (lit "screen -S " ++ screen ++ lit " -X stuff") in
  let exit := split SP (lit "screen -S " ++ screen ++ lit " -X quit") in
  match subprocess_run (Some path) start w1 with
  | (Ret _, w2) => (Ret (mkSelf false tmp true start query exit 0), w2)
  | (Raise (FileNotFoundError _), w2) =>
      (Raise (OSError (lit "screen (terminal command) is not found")), w2)
  | (Raise e, w2) => (Raise e, w2)
  | (Hang, w2) => (Hang, w2)
  end.

(** [__send_query(cmd)]: the text on the wire is [str(cmd)] with every
    apostrophe turned into a double quote. *)
Definition wire_text (cmd : pyval) : str := replace [SQ] [DQ] (py_str cmd).

Definition send_query (cmd : pyval) : M unit :=
  fun '(s, w) => in_world (subprocess_run None (QUERY s ++ [wire_text cmd ++ [NL]])) (s, w).

Definition check_open : M unit :=
  fun '(s, w) => if closed s then raise connection_is_closed (s, w) else ret tt (s, w).

Definition incr_queries : M unit :=
  fun '(s, w) => set_queries (queries s + 1) (s, w).

Definition init_search_cmd (name : str) : pyval :=
  PList [PStr (lit "init_search"); PList [PStr name; PStr []]].

Definition init_search (name : str) (namespaces : list str) : M unit :=
  check_open ;;;
  incr_queries ;;;
  send_query (init_search_cmd name).

Definition run_tac_cmd (search_id tactic_state_id : Z) (tactic : str) : pyval :=
  PList [PStr (lit "run_tac");
         PList [PStr (str_of_int search_id); PStr (str_of_int tactic_state_id);
                PStr (escape_newlines tactic)]].

Definition run_tac (search_id tactic_state_id : Z) (tactic : str) : M unit :=
  check_open ;;;
  incr_queries ;;;
  send_query (run_tac_cmd search_id tactic_state_id tactic).

Definition clear_search_cmd (search_id : Z) : pyval :=
  PList [PStr (lit "clear_search"); PList [PStr (str_of_int search_id)]].

Definition clear_search (search_id : Z) : M unit :=
  check_open ;;;
  incr_queries ;;;
  send_query (clear_search_cmd search_id).

(** One turn of the loop of [collect] on the line that [readline()]
    returned: the new counter and the new result list. *)
Definition collect_line (line : str) (q : Z) (result : list record)
    : outcome (Z * list record) :=
  match line with
  | [] => Ret (q, result)
  | c :: _ =>
      if N.eqb c LBRACE then
        match parse_response line with
        | Ret r => Ret (q - 1, result ++ [r])
        | Raise e => Raise e
        | Hang => Hang
        end
      else Ret (q, result)
  end.

(** The loop of [collect].  It returns the outcome, the counter and the
    lines not yet read.  When the counter is positive and the feed is
    used up, every further [readline()] answers the empty text and the
    loop polls for ever. *)
Fixpoint collect_loop (is_open : bool) (lines : list str) (q : Z) (result : list record)
    : outcome (list record) * Z * list str :=
  if 0 <? q then
    if is_open then
      match lines with
      | [] => (Hang, q, [])
      | line :: lines' =>
          match collect_line line q result with
          | Ret (q', result') => collect_loop is_open lines' q' result'
          | Raise e => (Raise e, q, lines')
          | Hang => (Hang, q, lines')
          end
      end
    else (Raise (ValueError (lit "I/O operation on closed file.")), q, lines)
  else (Ret result, q, lines).

Definition collect : M (list record) :=
  check_open ;;;
  fun '(s, w) =>
    let '(o, q, lines) := collect_loop (file_open s) (feed w) (queries s) [] in
    (set_queries q ;;; set_feed lines ;;; fun st => (o, st)) (s, w).

Definition close : M unit :=
  check_open ;;;
  set_closed true ;;;
  (fun '(s, w) => in_world (subprocess_run None (EXIT s)) (s, w)) ;;;
  set_file_open false ;;;
  fun '(s, w) => in_world (os_remove (filename s)) (s, w).

(** ** Running caller code *)

Definition run_call (c : call) : M reply :=
  match c with
  | InitSearch name namespaces => init_search name namespaces ;;; ret NoReply
  | RunTac sid tid tactic => run_tac sid tid tactic ;;; ret NoReply
  | ClearSearch sid => clear_search sid ;;; ret NoReply
  | Collect => rs <- collect ;; ret (Records rs)
  | Close => close ;;; ret NoReply
  end.

Fixpoint run_block {A} (b : block A) (st : state) : outcome A * state :=
  match b with
  | Return a => (Ret a, st)
  | Throw e => (Raise e, st)
  | Do c k =>
      match run_call c st with
      | (Ret r, st') => run_block (k (inr r)) st'
      | (Raise e, st') => run_block (k (inl e)) st'
      | (Hang, st') => (Hang, st')
      end
  end.

(** [try: body finally: connection.close()] *)
Definition finally_close {A} (body : M A) : M A :=
  fun st =>
    match body st with
    | (Ret a, st') =>
        match close st' with
        | (Ret _, st'') => (Ret a, st'')
        | (Raise e, st'') => (Raise e, st'')
        | (Hang, st'') => (Hang, st'')
        end
    | (Raise e, st') =>
        match close st' with
        | (Ret _, st'') => (Raise e, st'')
        | (Raise e', st'') => (Raise e', st'')
        | (Hang, st'') => (Hang, st'')
        end
    | (Hang, st') => (Hang, st')
    end.

(** [with invoke_lean(path) as connection: body].  Without a connection
    there is no [Self] at the end. *)
Definition invoke_lean {A} (path tmp : str) (body : block A) (w : World)
    : outcome A * option Self * World :=
  match init path tmp w with
  | (Ret s, w') =>
      let '(o, (s', w'')) := finally_close (run_block body) (s, w') in (o, Some s', w'')
  | (Raise e, w') => (Raise e, None, w')
  | (Hang, w') => (Hang, None, w')
  end.

(** A caller that issues the calls of a list one after the other and
    lets the first error through. *)
Fixpoint straight (cs : list call) : block unit :=
  match cs with
  | [] => Return tt
  | c :: cs' =>
      Do c (fun r => match r with inl e => Throw e | inr _ => straight cs' end)
  end.

Definition is_command (c : call) : bool :=
  match c with
  | InitSearch _ _ | RunTac _ _ _ | ClearSearch _ => true
  | Collect | Close => false
  end.

(** A candidate response line starts with an opening brace. *)
Definition is_candidate (line : str) : bool :=
  match line with
  | c :: _ => N.eqb c LBRACE
  | [] => false
  end.

Definition candidates (lines : list str) : list str := List.filter is_candidate lines.

(** The wire command of a command-issuing call. *)
Definition cmd_of (c : call) : pyval :=
  match c with
  | InitSearch name _ => init_search_cmd name
  | RunTac sid tid tactic => run_tac_cmd sid tid tactic
  | ClearSearch sid => clear_search_cmd sid
  | Collect | Close => PList []
  end.

(** What the three command-issuing methods have in common. *)
Definition issue (cmd : pyval) : M unit :=
  check_open ;;;
  incr_queries ;;;
  send_query cmd.

(** The state of a connection that [__init__] has built and nobody has
    closed: the reader is open, [screen] is there and the log exists. *)
Definition ready (st : state) : Prop :=
  closed st.1 = false /\ file_open st.1 = true
  /\ screen_found st.2 = true /\ filename st.1 ∈ files st.2.

(** What holds of a connection all its life: its log is [tmp] and its
    quit command [ex]; [screen] is there; and either it is open and the
    log exists, or it is closed, the log is gone and the quit command has
    run. *)
Definition tidy (tmp : str) (ex : list str) (st : state) : Prop :=
  filename st.1 = tmp /\ EXIT st.1 = ex /\ screen_found st.2 = true
  /\ ((closed st.1 = false /\ tmp ∈ files st.2)
      \/ (closed st.1 = true /\ (tmp ∉ files st.2) /\ (None, ex) ∈ spawned st.2)).

(** The state after the command [cmd] went out. *)
Definition issued (cmd : pyval) (st : state) : state :=
  (mkSelf (closed st.1) (filename st.1) (file_open st.1) (START st.1) (QUERY st.1)
          (EXIT st.1) (queries st.1 + 1),
   with_spawn None (QUERY st.1 ++ [wire_text cmd ++ [NL]]) st.2).

(** ** The pair pattern as a scanner

    What the backtracking matcher does on [pair_re], written as a
    deterministic scan; [re_match_pair] below shows that the two agree. *)

Definition scan_list (s : str) : option str :=
  match strip [LBRACKET] s with
  | Some s1 => strip [RBRACKET] (after (none_of [LBRACKET; RBRACKET]) s1)
  | None => None
  end.

Definition scan_text (s : str) : option str :=
  match strip [DQ] s with
  | Some s1 => strip [DQ] (after (none_of [DQ]) s1)
  | None => None
  end.

Definition scan_value (s : str) : option str :=
  match strip (lit "null") s with
  | Some rest => Some rest
  | None =>
      match scan_list s with
      | Some rest => Some rest
      | None => scan_text s
      end
  end.

Definition scan_pair (s : str) : option (str * list str) :=
  match strip [DQ] s with
  | Some (c :: s1) =>
      if key_char c then
        match strip [DQ; COLON] (after key_char s1) with
        | Some s3 =>
            match scan_value s3 with
            | Some rest =>
                Some (rest, [c :: leading key_char s1; take (length s3 - length rest) s3])
            | None => None
            end
        | None => None
        end
      else None
  | _ => None
  end.

(** ** The pair grammar, stated on the text

    A value is [null], a bracketed run without brackets, or a quoted run
    without quotes; a pair is a quoted non-empty key of word characters,
    a colon and a value. *)

Definition pair_value (v : str) : Prop :=
  v = lit "null"
  \/ (exists b, v = LBRACKET :: b ++ [RBRACKET]
                /\ Forall (fun c => c <> LBRACKET /\ c <> RBRACKET) b)
  \/ (exists b, v = DQ :: b ++ [DQ] /\ Forall (fun c => c <> DQ) b).

Definition pair_at (s : str) : Prop :=
  exists key value rest,
    s = DQ :: key ++ DQ :: COLON :: value ++ rest
    /\ key <> [] /\ Forall (fun c => key_char c = true) key /\ pair_value value.


(** No pair of the grammar starts anywhere in the line. *)
Definition no_pair (line : str) : Prop :=
  forall pre suf, line = pre ++ suf -> ~ pair_at suf.

End Program.

(** ** The decoder under the interpreter's digit limit

    CPython, from version 3.11 on, refuses by default to convert a text
    of more than 4300 digits to an integer
    ([sys.get_int_max_str_digits()]): [int] then raises [ValueError].
    [int_of_str] leaves this limit out.  The definitions below have it;
    apart from the call of [int] they are the decoder once more. *)

Definition int_max_str_digits : Z := 4300.

(** The error of [int] on a text of [n] digits, [n] over the limit. *)
Definition digit_limit_error (n : nat) : exn :=
  ValueError (lit "Exceeds the limit (" ++ str_of_int int_max_str_digits
              ++ lit " digits) for integer string conversion: value has "
              ++ str_of_int (Z.of_nat n)
              ++ lit " digits; use sys.set_int_max_str_digits() to increase the limit").


(** A value within the limit: if it is a quoted run of digits, these are
    at most [int_max_str_digits]. *)
Definition within_int_limit (v : str) : Prop :=
  forall ds, v = quoted ds -> forallb is_digit ds = true ->
    Z.of_nat (length ds) <= int_max_str_digits.

Section Limited.
Context {U : UnicodeData}.

(** [int(s)] with the limit: the digits are counted before anything else
    is looked at. *)
Definition int_limited (s : str) : outcome Z :=
  let n := length (leading is_digit s) in
  if int_max_str_digits <? Z.of_nat n then Raise (digit_limit_error n)
  else int_of_str s.

Definition decode_value_limited (v : str) : outcome value :=
  if str_eqb v (lit "null") then Ret VNone
  else
    match re_match 0 int_re v with
    | Some _ =>
        match int_limited (inner v) with
        | Ret n => Ret (VInt n)
        | Raise e => Raise e
        | Hang => Hang
        end
    | None =>
        match v with
        | [] => Raise (IndexError (lit "string index out of range"))
        | c :: _ =>
            if N.eqb c DQ then Ret (VStr (unescape_newlines (inner v)))
            else Ret (VList (map (fun g => nth 0 g []) (findall 1 item_re v)))
        end
    end.

Fixpoint parse_pairs_limited (pairs : list (list str)) (result : record) : outcome record :=
  match pairs with
  | [] => Ret result
  | g :: rest =>
      match decode_value_limited (nth 1 g []) with
      | Ret v => parse_pairs_limited rest (<[nth 0 g [] := v]> result)
      | Raise e => Raise e
      | Hang => Hang
      end
  end.

Definition parse_response_limited (responce : str) : outcome record :=
  parse_pairs_limited (findall 2 pair_re responce) ∅.

End Limited.

(** ** Further notions for the properties *)

(** The minus sign. *)
Definition MINUS : char := 45%N.

(** A printable ASCII character other than the two quotes and the
    backslash: [repr] copies it. *)
Definition safe_char (c : char) : bool :=
  (32 <=? c)%N && (c <? 127)%N
  && negb (N.eqb c SQ) && negb (N.eqb c DQ) && negb (N.eqb c BS).

(** The value of a run of digits read after the value [acc]. *)
Definition digits_from (acc : Z) (ds : str) : Z :=
  fold_left (fun a d => 10 * a + (Z.of_N d - 48)) ds acc.

(** One field of a response line: the key, the encoded value, and the
    text that follows the value up to the next field. *)
Record field := mkField {
  f_key : str;
  f_value : str;
  f_tail : str
}.

Definition field_text (f : field) : str :=
  quoted (f_key f) ++ COLON :: f_value f ++ f_tail f.

(** A line made of some text and a sequence of fields. *)
Definition fields_line (head : str) (fs : list field) : str :=
  head ++ flat_map field_text fs.

(** What the decoder can give for a field. *)
Definition value_ok (v : value) : Prop :=
  match v with
  | VNone => True
  | VInt n => 0 <= n
  | VStr s => DQ ∉ s
  | VList l => Forall (fun x => DQ ∉ x) l
  end.

Section FurtherNotions.
Context {U : UnicodeData}.

(** A field of the grammar, followed by text without a double quote. *)
Definition well_formed (f : field) : Prop :=
  f_key f <> [] /\ Forall (fun c => key_char c = true) (f_key f)
  /\ pair_value (f_value f) /\ DQ ∉ f_tail f.

(** The key of a field and the Python value of its encoded value. *)
Definition decodes_to (f : field) (kx : str * value) : Prop :=
  kx.1 = f_key f /\ decode_value_limited (f_value f) = Ret kx.2.

End FurtherNotions.

(** The name of the [screen] session of the connection number [n]. *)
Definition session_name (n : Z) : str := lit "lean_repl" ++ str_of_int n.

(** A newline as it stands in the text that [run_tac] sends: two
    backslashes and the letter n. *)
Definition wire_char (c : char) : str :=
  if N.eqb c NL then [BS; BS; LETTER_n] else [c].

(** The three command lines of the connection number [n] whose log is
    [tmp], as argument vectors. *)
Definition start_argv (tmp : str) (n : Z) : list str :=
  [lit "screen"; lit "-Logfile"; tmp; lit "-dmSL"; session_name n;
   lit "lean"; lit "--run"; lit "src/repl.lean"].

Definition query_argv (n : Z) : list str :=
  [lit "screen"; lit "-S"; session_name n; lit "-X"; lit "stuff"].

Definition exit_argv (n : Z) : list str :=
  [lit "screen"; lit "-S"; session_name n; lit "-X"; lit "quit"].

Section FurtherStates.
Context {U : UnicodeData}.

(** The process that a command-issuing call starts. *)
Definition sent (s : Self) (c : call) : option str * list str :=
  (None, QUERY s ++ [wire_text (cmd_of c) ++ [NL]]).

(** The state after the commands [cmds] went out, one after the other. *)
Definition after_commands (cmds : list call) (st : state) : state :=
  (mkSelf (closed st.1) (filename st.1) (file_open st.1) (START st.1) (QUERY st.1)
          (EXIT st.1) (queries st.1 + Z.of_nat (length cmds)),
   mkWorld (n_conns st.2) (screen_found st.2) (files st.2)
           (spawned st.2 ++ map (sent st.1) cmds) (feed st.2)).

(** A process of the connection itself: its quit command or one of its
    commands for the REPL, started in the current directory. *)
Definition own_process (s : Self) (e : option str * list str) : Prop :=
  e = (None, EXIT s) \/ exists c, is_command c = true /\ e = sent s c.

(** What a connection leaves alone while it goes from [st] to [st']:
    the counter of connections, its own names, every file but its log;
    and the processes it starts are its own. *)
Definition keeps_to_itself (st st' : state) : Prop :=
  n_conns st'.2 = n_conns st.2
  /\ screen_found st'.2 = screen_found st.2
  /\ filename st'.1 = filename st.1
  /\ START st'.1 = START st.1 /\ QUERY st'.1 = QUERY st.1 /\ EXIT st'.1 = EXIT st.1
  /\ (forall f, f <> filename st.1 -> f ∈ files st'.2 <-> f ∈ files st.2)
  /\ exists new, spawned st'.2 = spawned st.2 ++ new /\ Forall (own_process st.1) new.

End FurtherStates.

(** ** Sample data *)

(** A sample table, with the letters and the printable characters of
    Latin-1. *)
Definition latin1 : UnicodeData := {|
  unicode_alnum := fun c => (192 <=? c)%N && (c <=? 255)%N && negb (N.eqb c 215) && negb (N.eqb c 247);
  unicode_printable := fun c => (161 <=? c)%N && (c <=? 255)%N && negb (N.eqb c 173)
|}.

Definition sample_world (lines : list str) : World := mkWorld 0 true ∅ [] lines.

(** A log: a banner, a pause, two responses, a candidate line without a
    pair, and one more response. *)
Definition sample_lines : list str :=
  [lit "Lean (version 3.30.0)"; [];
   qlit "{'error':null,'search_id':'0','tactic_state':'|- true'}";
   qlit "{'goals':['a','b']}";
   lit "{ }";
   qlit "{'error':'unknown id'}"].

(** The connection that [__init__] builds in the sample world. *)
Definition sample_state (lines : list str) : state :=
  match init (lit "/opt/lean-gym") (lit "/tmp/tmpk3x") (sample_world lines) with
  | (Ret s, w) => (s, w)
  | (_, w) => (mkSelf true [] false [] [] [] 0, w)
  end.

(** A tactic of two lines. *)
Definition sample_tactic : str := lit "intros," ++ NL :: lit "simp".

Definition sample_cmds : list call :=
  [InitSearch (lit "nat.add_comm") [lit "nat"];
   RunTac 0 0 sample_tactic;
   ClearSearch 0].

(** A block that issues a command, collects, closes the connection
    itself and then fails. *)
Definition sample_block : block unit :=
  Do (InitSearch (lit "nat.add_comm") []) (fun _ =>
  Do Collect (fun _ =>
  Do Close (fun _ =>
  Throw (OtherError 7)))).



(** The sample connection after the sample commands, and what
    [collect()] then gives. *)
Definition sample_busy : state :=
  after_commands (U := latin1) sample_cmds (sample_state sample_lines).

Definition sample_collected : outcome (list record) * state :=
  collect (U := latin1) sample_busy.

Definition records_of (o : outcome (list record)) : list record :=
  match o with
  | Ret rs => rs
  | _ => []
  end.

(** A second connection, built in the world that the first one left. *)
Definition sample_second : state :=
  match init (lit "/opt/lean-gym") (lit "/tmp/tmpq7d") (sample_state []).2 with
  | (Ret s, w) => (s, w)
  | (_, w) => (mkSelf true [] false [] [] [] 0, w)
  end.

(** The fields of a response to [run_tac]. *)
Definition sample_reply : list field :=
  [mkField (lit "error") (lit "null") [COMMA];
   mkField (lit "search_id") (quoted (lit "0")) [COMMA];
   mkField (lit "tactic_state_id") (quoted (lit "12")) [RBRACE]].

(** A world without [screen]. *)
Definition bare_world : World := mkWorld 0 false ∅ [] [].

(** * Properties *)

(** ** Text *)

Lemma strip_Some (p s r : str) : strip p s = Some r <-> s = p ++ r.
Proof.
  revert s; induction p as [|a p IH]; intros s; simpl.
  - split; congruence.
  - destruct s as [|b s]; [split; discriminate|].
    destruct (N.eqb_spec a b) as [->|Hab].
    + rewrite IH. split; congruence.
    + split; [discriminate|]. intros [= E _]. congruence.
Qed.

Lemma strip_app (p r : str) : strip p (p ++ r) = Some r.
Proof. by apply strip_Some. Qed.

Lemma strip_one (a : char) (r : str) : strip [a] (a :: r) = Some r.
Proof. simpl. by rewrite N.eqb_refl. Qed.

Lemma strip_head_ne (a b : char) (p s : str) :
  a <> b -> strip (a :: p) (b :: s) = None.
Proof. intros H; simpl. by destruct (N.eqb_spec a b). Qed.

Lemma leading_after (p : char -> bool) (s : str) : leading p s ++ after p s = s.
Proof. induction s as [|c s IH]; simpl; [done|]. destruct (p c); simpl; congruence. Qed.

Lemma leading_all (p : char -> bool) (s : str) : forallb p (leading p s) = true.
Proof. induction s as [|c s IH]; simpl; [done|]. destruct (p c) eqn:E; simpl; [by rewrite E|done]. Qed.

Lemma after_head (p : char -> bool) (s : str) (c : char) (t : str) :
  after p s = c :: t -> p c = false.
Proof.
  induction s as [|d s IH]; simpl; [discriminate|].
  destruct (p d) eqn:E; [done|]. congruence.
Qed.

Lemma leading_app_stop (p : char -> bool) (pre : str) (c : char) (t : str) :
  forallb p pre = true -> p c = false -> leading p (pre ++ c :: t) = pre.
Proof.
  intros Hpre Hc. induction pre as [|d pre IH]; simpl in *.
  - by rewrite Hc.
  - apply andb_true_iff in Hpre as [-> Hpre]. by rewrite IH.
Qed.

Lemma after_app_stop (p : char -> bool) (pre : str) (c : char) (t : str) :
  forallb p pre = true -> p c = false -> after p (pre ++ c :: t) = c :: t.
Proof.
  intros Hpre Hc. induction pre as [|d pre IH]; simpl in *.
  - by rewrite Hc.
  - apply andb_true_iff in Hpre as [-> Hpre]. by rewrite IH.
Qed.

Lemma take_app_rest (pre rest : str) :
  take (length (pre ++ rest) - length rest) (pre ++ rest) = pre.
Proof.
  rewrite length_app.
  replace (length pre + length rest - length rest)%nat with (length pre) by lia.
  by rewrite take_app_length.
Qed.

(** Replacing a single character is a character-wise map. *)
Lemma replace_char (a : char) (new s : str) :
  replace [a] new s = flat_map (fun c => if N.eqb a c then new else [c]) s.
Proof.
  unfold replace. induction s as [|c s IH]; simpl; [done|].
  destruct (N.eqb a c); simpl; by rewrite IH.
Qed.

Lemma wire_replace (s : str) :
  replace [SQ] [DQ] s = map (fun c => if N.eqb c SQ then DQ else c) s.
Proof.
  rewrite replace_char. induction s as [|c s IH]; [done|].
  cbn [flat_map map]. rewrite IH.
  destruct (N.eqb_spec SQ c), (N.eqb_spec c SQ); simpl; congruence.
Qed.

Lemma wire_no_apostrophe (s : str) : SQ ∉ replace [SQ] [DQ] s.
Proof.
  rewrite wire_replace. intros [c [E _]]%list_elem_of_fmap.
  destruct (N.eqb_spec c SQ); [discriminate|]. by subst.
Qed.

Lemma contains_elem (needle s : str) (c : char) :
  contains needle s = true -> c ∈ needle -> c ∈ s.
Proof.
  induction s as [|d s IH]; simpl.
  - destruct (strip needle []) eqn:E; [|discriminate].
    apply strip_Some in E. intros _ Hc.
    destruct needle; [by apply elem_of_nil in Hc|discriminate].
  - destruct (strip needle (d :: s)) eqn:E.
    + apply strip_Some in E. intros _ Hc. rewrite E. apply elem_of_app; by left.
    + intros H Hc. apply elem_of_cons; right. by apply IH.
Qed.

Lemma contains_spec (needle s : str) :
  contains needle s = true <-> exists pre post, s = pre ++ needle ++ post.
Proof.
  induction s as [|d s IH]; simpl.
  - destruct (strip needle []) as [r|] eqn:E.
    + apply strip_Some in E. split; [|done]. intros _. by exists [], r.
    + split; [discriminate|]. intros (pre & post & H).
      destruct pre; [|discriminate]. simpl in H.
      assert (strip needle [] = Some post) by by apply strip_Some. congruence.
  - destruct (strip needle (d :: s)) as [r|] eqn:E.
    + apply strip_Some in E. split; [|done]. intros _. by exists [], r.
    + rewrite IH. split.
      * intros (pre & post & ->). by exists (d :: pre), post.
      * intros (pre & post & H). destruct pre as [|e pre].
        -- simpl in H. assert (strip needle (d :: s) = Some post) by by apply strip_Some.
           congruence.
        -- injection H as -> ->. by exists pre, post.
Qed.

(** ** Escaping and restoring newlines *)

Lemma escape_cons (c : char) (s : str) :
  escape_newlines (c :: s) = (if N.eqb NL c then ESC_NL else [c]) ++ escape_newlines s.
Proof. unfold escape_newlines. by rewrite !replace_char. Qed.

Lemma unescape_esc (t : str) :
  unescape_newlines (BS :: LETTER_n :: t) = NL :: unescape_newlines t.
Proof. reflexivity. Qed.

Lemma unescape_other (c : char) (t : str) :
  strip ESC_NL (c :: t) = None ->
  unescape_newlines (c :: t) = c :: unescape_newlines t.
Proof. intros H. unfold unescape_newlines, replace. cbn [replace_from]. by rewrite H. Qed.

Lemma escape_head (s : str) (t : str) :
  escape_newlines s = LETTER_n :: t -> exists s', s = LETTER_n :: s'.
Proof.
  destruct s as [|d s]; [discriminate|]. rewrite escape_cons.
  destruct (N.eqb_spec NL d); simpl; [discriminate|].
  intros [= -> _]. by eexists.
Qed.

(** An escaped text starts with a backslash and the letter n only where
    the text starts with a newline or with these two characters. *)
Lemma escape_no_new_escape (c : char) (s : str) :
  NL <> c -> strip ESC_NL (c :: s) = None ->
  strip ESC_NL (c :: escape_newlines s) = None.
Proof.
  intros Hc Hs.
  destruct (strip ESC_NL (c :: escape_newlines s)) as [r|] eqn:E; [|done].
  apply strip_Some in E. injection E as -> E.
  apply escape_head in E as [s' ->]. discriminate.
Qed.

(** ** The matcher *)

(** A greedy repetition followed by something that cannot start with a
    character of the class stops exactly where the class stops. *)
Lemma star_greedy {A} (p : char -> bool) (s : str) (k : str -> option A) :
  (forall c t, p c = true -> k (c :: t) = None) ->
  star p s k = k (after p s).
Proof.
  intros Hk. induction s as [|c s IH]; simpl; [done|].
  destruct (p c) eqn:E; [|done].
  rewrite IH. destruct (k (after p s)) eqn:Ek; [done|].
  by apply Hk.
Qed.

Lemma none_of_spec (cs : list char) (c : char) : none_of cs c = true <-> c ∉ cs.
Proof.
  unfold none_of. rewrite negb_true_iff. induction cs as [|d cs IH]; simpl.
  - split; [intros _; apply not_elem_of_nil|done].
  - rewrite not_elem_of_cons, <- IH, orb_false_iff.
    destruct (N.eqb_spec c d); intuition congruence.
Qed.

(** The side condition of [star_greedy] for a class [none_of cs] that is
    followed by a character of [cs]. *)
Ltac class_stops :=
  let Hd := fresh "Hd" in
  intros ? ? Hd; apply none_of_spec in Hd;
  rewrite strip_head_ne; [done|]; intros <-; apply Hd; repeat constructor.

Section Matcher.
Context {U : UnicodeData}.

Lemma key_char_DQ : key_char DQ = false.
Proof. reflexivity. Qed.

Lemma key_char_not_DQ (c : char) : key_char c = true -> DQ <> c.
Proof. intros H <-. by rewrite key_char_DQ in H. Qed.

Lemma take_leading (p : char -> bool) (c : char) (s : str) :
  take (length (c :: s) - length (after p s)) (c :: s) = c :: leading p s.
Proof.
  rewrite <- (leading_after p s) at 1 3.
  change (c :: leading p s ++ after p s) with ((c :: leading p s) ++ after p s).
  apply take_app_rest.
Qed.

Lemma re_match_pair (s : str) : re_match 2 pair_re s = scan_pair s.
Proof.
  unfold re_match, pair_re, scan_pair. cbn [rmatch].
  destruct (strip [DQ] s) as [[|c s1]|] eqn:E1; [done| |done].
  destruct (key_char c) eqn:Ec; [|done].
  rewrite star_greedy.
  2:{ intros d t Hd. rewrite strip_head_ne; [done|]. by apply key_char_not_DQ. }
  destruct (strip [DQ; COLON] (after key_char s1)) as [s3|] eqn:E3; [|done].
  rewrite take_leading. unfold scan_value, scan_list, scan_text.
  destruct (strip (lit "null") s3) as [r|]; [done|].
  destruct (strip [LBRACKET] s3) as [s4|].
  - rewrite star_greedy.
    2:{ class_stops. }
    destruct (strip [RBRACKET] _) as [r|]; [done|].
    destruct (strip [DQ] s3) as [s5|]; [|done].
    rewrite star_greedy.
    2:{ class_stops. }
    by destruct (strip [DQ] _).
  - destruct (strip [DQ] s3) as [s5|]; [|done].
    rewrite star_greedy.
    2:{ class_stops. }
    by destruct (strip [DQ] _).
Qed.

Lemma forallb_Forall_true (p : char -> bool) (l : str) :
  forallb p l = true <-> Forall (fun c => p c = true) l.
Proof.
  induction l as [|c l IH]; simpl.
  - split; [constructor|done].
  - rewrite andb_true_iff, Forall_cons, IH. tauto.
Qed.

Lemma no_bracket_class (b : str) :
  forallb (none_of [LBRACKET; RBRACKET]) b = true
  <-> Forall (fun c => c <> LBRACKET /\ c <> RBRACKET) b.
Proof.
  rewrite forallb_Forall_true. apply Forall_iff. intros c.
  rewrite none_of_spec, !not_elem_of_cons. pose proof (not_elem_of_nil c). tauto.
Qed.

Lemma no_quote_class (b : str) :
  forallb (none_of [DQ]) b = true <-> Forall (fun c => c <> DQ) b.
Proof.
  rewrite forallb_Forall_true. apply Forall_iff. intros c.
  rewrite none_of_spec, !not_elem_of_cons. pose proof (not_elem_of_nil c). tauto.
Qed.

Lemma null_text : lit "null" = [110; 117; 108; 108]%N.
Proof. reflexivity. Qed.

Lemma scan_value_sound (s rest : str) :
  scan_value s = Some rest -> exists v, s = v ++ rest /\ pair_value v.
Proof.
  unfold scan_value, scan_list, scan_text.
  destruct (strip (lit "null") s) as [r|] eqn:E0.
  { intros [= ->]. apply strip_Some in E0. exists (lit "null"). split; [done|by left]. }
  destruct (strip [LBRACKET] s) as [s1|] eqn:E1.
  - apply strip_Some in E1 as ->.
    destruct (strip [RBRACKET] _) as [r|] eqn:E2.
    + intros [= ->]. apply strip_Some in E2.
      exists (LBRACKET :: leading (none_of [LBRACKET; RBRACKET]) s1 ++ [RBRACKET]). split.
      * rewrite <- (leading_after (none_of [LBRACKET; RBRACKET]) s1) at 1.
        rewrite E2. simpl. by rewrite <- !app_assoc.
      * right; left. eexists; split; [done|].
        apply no_bracket_class, leading_all.
    + discriminate.
  - destruct (strip [DQ] s) as [s1|] eqn:E3; [|discriminate].
    apply strip_Some in E3 as ->. intros E2. apply strip_Some in E2.
    exists (DQ :: leading (none_of [DQ]) s1 ++ [DQ]). split.
    + rewrite <- (leading_after (none_of [DQ]) s1) at 1.
      rewrite E2. simpl. by rewrite <- !app_assoc.
    + right; right. eexists; split; [done|].
      apply no_quote_class, leading_all.
Qed.

Lemma scan_value_complete (v rest : str) :
  pair_value v -> scan_value (v ++ rest) = Some rest.
Proof.
  unfold scan_value, scan_list, scan_text.
  intros [->|[(b & -> & Hb)|(b & -> & Hb)]].
  - by rewrite strip_app.
  - rewrite null_text. cbn [app]. rewrite strip_head_ne by done.
    change (LBRACKET :: (b ++ [RBRACKET]) ++ rest)
      with ([LBRACKET] ++ (b ++ [RBRACKET]) ++ rest).
    rewrite strip_app, <- app_assoc. cbn [app].
    rewrite after_app_stop; [|by apply no_bracket_class|done].
    by rewrite strip_one.
  - rewrite null_text. cbn [app]. rewrite !strip_head_ne by done.
    change (DQ :: (b ++ [DQ]) ++ rest) with ([DQ] ++ (b ++ [DQ]) ++ rest).
    rewrite strip_app, <- app_assoc. cbn [app].
    rewrite after_app_stop; [|by apply no_quote_class|done].
    by rewrite strip_one.
Qed.

Lemma pair_value_nonempty (v : str) : pair_value v -> v <> [].
Proof. by intros [->|[(b & -> & _)|(b & -> & _)]]. Qed.

Lemma scan_pair_sound (s rest : str) (g : list str) :
  scan_pair s = Some (rest, g) ->
  exists key value,
    g = [key; value]
    /\ s = DQ :: key ++ DQ :: COLON :: value ++ rest
    /\ key <> [] /\ Forall (fun c => key_char c = true) key /\ pair_value value.
Proof.
  unfold scan_pair.
  destruct (strip [DQ] s) as [[|c s1]|] eqn:E1; [done| |done].
  apply strip_Some in E1 as ->.
  destruct (key_char c) eqn:Ec; [|done].
  destruct (strip [DQ; COLON] _) as [s3|] eqn:E3; [|done].
  apply strip_Some in E3.
  destruct (scan_value s3) as [r|] eqn:E4; [|done].
  intros [= -> <-]. apply scan_value_sound in E4 as (v & -> & Hv).
  exists (c :: leading key_char s1), v. rewrite take_app_rest.
  split_and!; [done| |done| |done].
  - rewrite <- (leading_after key_char s1) at 1. by rewrite E3.
  - constructor; [done|]. apply forallb_Forall_true, leading_all.
Qed.

Lemma scan_pair_complete (key value rest : str) :
  key <> [] -> Forall (fun c => key_char c = true) key -> pair_value value ->
  scan_pair (DQ :: key ++ DQ :: COLON :: value ++ rest) = Some (rest, [key; value]).
Proof.
  intros Hne Hkey Hv. destruct key as [|c key]; [done|].
  apply Forall_cons in Hkey as [Hc Hkey]. apply forallb_Forall_true in Hkey.
  unfold scan_pair.
  change (DQ :: (c :: key) ++ DQ :: COLON :: value ++ rest)
    with ([DQ] ++ c :: key ++ DQ :: COLON :: value ++ rest).
  rewrite strip_app, Hc.
  rewrite after_app_stop, leading_app_stop by (done || apply key_char_DQ).
  change (DQ :: COLON :: value ++ rest) with ([DQ; COLON] ++ value ++ rest).
  rewrite strip_app, scan_value_complete by done.
  by rewrite take_app_rest.
Qed.

End Matcher.

(** ** The scan of [findall] *)

Section Findall.
Variables (n : nat) (r : regex).

Lemma findall_from_Forall (P : list str -> Prop) (s : str) (skip : nat) :
  (forall t rest g, re_match n r t = Some (rest, g) -> P g) ->
  Forall P (findall_from n r s skip).
Proof.
  intros HP. revert skip. induction s as [|c s IH]; intros skip; simpl.
  - destruct skip; [|constructor].
    destruct (re_match n r []) as [[rest g]|] eqn:E; [|constructor].
    repeat constructor. by eapply HP.
  - destruct skip; [|apply IH].
    destruct (re_match n r (c :: s)) as [[rest g]|] eqn:E; [|apply IH].
    constructor; [by eapply HP|apply IH].
Qed.

Lemma findall_from_none (s : str) (skip : nat) :
  (forall pre suf, s = pre ++ suf -> re_match n r suf = None) ->
  findall_from n r s skip = [].
Proof.
  revert skip. induction s as [|c s IH]; intros skip H; simpl.
  - destruct skip; [|done]. by rewrite (H [] []).
  - assert (forall pre suf, s = pre ++ suf -> re_match n r suf = None) as H'.
    { intros pre suf ->. by apply (H (c :: pre)). }
    destruct skip; [|by apply IH].
    rewrite (H [] (c :: s)) by done. by apply IH.
Qed.

Lemma findall_from_drop (s : str) (skip : nat) :
  (skip <= length s)%nat -> findall_from n r s skip = findall n r (drop skip s).
Proof.
  revert skip. induction s as [|c s IH]; intros skip H; simpl in H.
  - by replace skip with O by lia.
  - destruct skip; [done|]. simpl. apply IH. lia.
Qed.

Lemma findall_miss (c : char) (s : str) :
  re_match n r (c :: s) = None -> findall n r (c :: s) = findall n r s.
Proof. intros H. unfold findall. simpl. by rewrite H. Qed.

Lemma findall_hit (pre rest : str) (g : list str) :
  pre <> [] -> re_match n r (pre ++ rest) = Some (rest, g) ->
  findall n r (pre ++ rest) = g :: findall n r rest.
Proof.
  intros Hpre H. destruct pre as [|c pre]; [done|].
  unfold findall at 1. cbn [app findall_from]. cbn [app] in H. rewrite H.
  f_equal. rewrite findall_from_drop.
  - f_equal. cbn [length]. rewrite length_app.
    replace (Nat.pred (S (length pre + length rest) - length rest)) with (length pre) by lia.
    by rewrite drop_app_length.
  - cbn [length]. rewrite !length_app. lia.
Qed.

End Findall.

(** ** The decoder *)

Lemma is_digit_not_DQ (c : char) : is_digit c = true -> DQ <> c.
Proof. by intros H <-. Qed.

Lemma re_match_int (v : str) :
  re_match 0 int_re v =
  match strip [DQ] v with
  | Some (c :: s1) =>
      if is_digit c then
        match strip [DQ] (after is_digit s1) with
        | Some rest => Some (rest, [])
        | None => None
        end
      else None
  | _ => None
  end.
Proof.
  unfold re_match, int_re. cbn [rmatch].
  destruct (strip [DQ] v) as [[|c s1]|]; [done| |done].
  destruct (is_digit c); [|done].
  rewrite star_greedy; [done|].
  intros d t Hd. rewrite strip_head_ne; [done|]. by apply is_digit_not_DQ.
Qed.

Lemma int_match_sound (v : str) (x : str * list str) :
  re_match 0 int_re v = Some x ->
  exists ds rest, v = DQ :: ds ++ DQ :: rest /\ ds <> [] /\ forallb is_digit ds = true.
Proof.
  rewrite re_match_int.
  destruct (strip [DQ] v) as [[|c s1]|] eqn:E1; [done| |done].
  apply strip_Some in E1 as ->.
  destruct (is_digit c) eqn:Ec; [|done].
  destruct (strip [DQ] _) as [rest|] eqn:E2; [|done].
  apply strip_Some in E2. intros _.
  exists (c :: leading is_digit s1), rest. split_and!; [|done|].
  - rewrite <- (leading_after is_digit s1) at 1. by rewrite E2.
  - simpl. by rewrite Ec, leading_all.
Qed.

Lemma int_match_complete (ds rest : str) :
  ds <> [] -> forallb is_digit ds = true ->
  re_match 0 int_re (DQ :: ds ++ DQ :: rest) = Some (rest, []).
Proof.
  intros Hne Hds. destruct ds as [|c ds]; [done|].
  simpl in Hds. apply andb_true_iff in Hds as [Hc Hds].
  rewrite re_match_int. rewrite strip_one. cbn [app]. rewrite Hc.
  rewrite after_app_stop by done. by rewrite strip_one.
Qed.

(** The text before the first occurrence of a character is determined. *)
Lemma first_occurrence (x : char) (a b r r' : str) :
  x ∉ a -> x ∉ b -> a ++ x :: r = b ++ x :: r' -> a = b /\ r = r'.
Proof.
  revert b. induction a as [|c a IH]; intros [|d b] Ha Hb E; simpl in E.
  - by injection E.
  - injection E as -> _. exfalso. apply Hb. by left.
  - injection E as -> _. exfalso. apply Ha. by left.
  - injection E as -> E. apply not_elem_of_cons in Ha as [_ Ha].
    apply not_elem_of_cons in Hb as [_ Hb].
    destruct (IH b Ha Hb E) as [-> ->]. done.
Qed.

Lemma digits_no_quote (ds : str) : forallb is_digit ds = true -> DQ ∉ ds.
Proof.
  intros H Hin. apply forallb_Forall_true in H.
  rewrite Forall_forall in H. by specialize (H _ Hin).
Qed.

Lemma inner_quoted (q q' : char) (b : str) : inner (q :: b ++ [q']) = b.
Proof. unfold inner. simpl. apply removelast_last. Qed.

(** What [int] is called on: the text between the quotes of a match of
    [int_re] is a run of digits, or it holds a double quote. *)
Lemma int_argument_shape (v : str) (x : str * list str) :
  re_match 0 int_re v = Some x ->
  (inner v <> [] /\ forallb is_digit (inner v) = true) \/ DQ ∈ inner v.
Proof.
  intros (ds & rest & -> & Hne & Hds)%int_match_sound.
  destruct rest as [|c rest _] using rev_ind.
  - left. by rewrite inner_quoted.
  - right.
    replace (DQ :: ds ++ DQ :: rest ++ [c]) with (DQ :: (ds ++ DQ :: rest) ++ [c])
      by (by rewrite <- app_assoc).
    rewrite inner_quoted. apply elem_of_app; right. by left.
Qed.

Section Decoder.
Context {U : UnicodeData}.

Lemma decode_null : decode_value (lit "null") = Ret VNone.
Proof. reflexivity. Qed.

Lemma not_null_quoted (b : str) : str_eqb (DQ :: b) (lit "null") = false.
Proof. unfold str_eqb. by apply bool_decide_eq_false. Qed.

Lemma not_null_bracket (b : str) : str_eqb (LBRACKET :: b) (lit "null") = false.
Proof. unfold str_eqb. by apply bool_decide_eq_false. Qed.

Lemma decode_int (ds : str) :
  ds <> [] -> forallb is_digit ds = true ->
  decode_value (DQ :: ds ++ [DQ]) = Ret (VInt (digits_value ds)).
Proof.
  intros Hne Hds. unfold decode_value.
  rewrite not_null_quoted, int_match_complete, inner_quoted by done.
  unfold int_of_str. destruct ds; [done|]. by rewrite Hds.
Qed.

Lemma decode_text (b : str) :
  DQ ∉ b -> (b = [] \/ forallb is_digit b = false) ->
  decode_value (DQ :: b ++ [DQ]) = Ret (VStr (unescape_newlines b)).
Proof.
  intros Hb Hnd. unfold decode_value. rewrite not_null_quoted.
  destruct (re_match 0 int_re _) as [x|] eqn:E.
  - apply int_match_sound in E as (ds & rest & E & Hne & Hds). exfalso.
    injection E as E.
    apply first_occurrence in E as [-> _]; [|done|by apply digits_no_quote].
    destruct Hnd; congruence.
  - by rewrite inner_quoted.
Qed.

Lemma decode_list (b : str) :
  decode_value (LBRACKET :: b) =
  Ret (VList (map (fun g => nth 0 g []) (findall 1 item_re (LBRACKET :: b)))).
Proof.
  unfold decode_value. rewrite not_null_bracket, re_match_int.
  by rewrite strip_head_ne.
Qed.

(** The decoder never raises on a value of the grammar. *)
Lemma decode_value_total (v : str) :
  pair_value v -> exists x, decode_value v = Ret x.
Proof.
  intros [->|[(b & -> & Hb)|(b & -> & Hb)]].
  - eexists; apply decode_null.
  - eexists; apply decode_list.
  - assert (DQ ∉ b) as Hq.
    { intros Hin. rewrite Forall_forall in Hb. by apply (Hb _ Hin). }
    destruct b as [|c b]; [eexists; by apply decode_text; [|left]|].
    destruct (forallb is_digit (c :: b)) eqn:E.
    + eexists; by apply decode_int.
    + eexists; apply decode_text; [done|by right].
Qed.

Lemma parse_pairs_total (pairs : list (list str)) (result : record) :
  Forall (fun g : list str => pair_value (nth 1 g [])) pairs ->
  exists r, parse_pairs pairs result = Ret r.
Proof.
  revert result. induction pairs as [|g pairs IH]; intros result H; cbn [parse_pairs].
  - by eexists.
  - apply Forall_cons in H as [Hg H].
    destruct (decode_value_total _ Hg) as [x ->]. by apply IH.
Qed.

(** Decoding a line never raises. *)
Lemma parse_response_total (line : str) : exists r, parse_response line = Ret r.
Proof.
  apply parse_pairs_total, findall_from_Forall.
  intros t rest g E. rewrite re_match_pair in E.
  by apply scan_pair_sound in E as (key & value & -> & _ & _ & _ & Hv).
Qed.

Lemma findall_no_pair (line : str) :
  no_pair line -> findall 2 pair_re line = [].
Proof.
  intros H. apply findall_from_none. intros pre suf E.
  destruct (re_match 2 pair_re suf) as [[rest g]|] eqn:Em; [|done].
  exfalso. apply (H pre suf E).
  rewrite re_match_pair in Em.
  apply scan_pair_sound in Em as (key & value & _ & -> & Hne & Hk & Hv).
  by exists key, value, rest.
Qed.

End Decoder.

(** ** Lists of quoted items *)




Section DecodeLines.
Context {U : UnicodeData}.


(** A line that is one pair between braces decodes to the record of
    that one field. *)
Lemma parse_one_pair (key v : str) (x : value) :
  key <> [] -> Forall (fun c => key_char c = true) key -> pair_value v ->
  decode_value v = Ret x ->
  parse_response (one_pair_line key v) = Ret {[key := x]}.
Proof.
  intros Hne Hkey Hv Hx. unfold parse_response, one_pair_line, quoted.
  rewrite findall_miss by (rewrite re_match_pair; reflexivity).
  replace ((DQ :: key ++ [DQ]) ++ COLON :: v ++ [RBRACE])
    with ((DQ :: key ++ DQ :: COLON :: v) ++ [RBRACE])
    by (cbn [app]; by rewrite <- !app_assoc).
  rewrite findall_hit with (g := [key; v]); [|done|].
  - cbn [parse_pairs nth]. rewrite Hx.
    rewrite findall_miss by (rewrite re_match_pair; reflexivity).
    reflexivity.
  - rewrite re_match_pair. cbn [app]. rewrite <- app_assoc. cbn [app].
    by apply scan_pair_complete.
Qed.

End DecodeLines.

(** ** The methods, one by one *)

Section Protocol.
Context {U : UnicodeData}.

Lemma closed_raises {A} (m : M A) (st : state) :
  closed st.1 = true -> (check_open ;;; m) st = (Raise connection_is_closed, st).
Proof. destruct st as [s w]. simpl. intros H. unfold bind, check_open. by rewrite H. Qed.

Lemma issue_open (cmd : pyval) (st : state) :
  closed st.1 = false -> screen_found st.2 = true ->
  issue cmd st = (Ret tt, issued cmd st).
Proof.
  destruct st as [[] []]. simpl. intros -> ->.
  reflexivity.
Qed.

Lemma command_is_issue (c : call) :
  is_command c = true -> run_call c = (issue (cmd_of c) ;;; ret NoReply).
Proof. by destruct c. Qed.

Lemma command_open (c : call) (st : state) :
  is_command c = true -> closed st.1 = false -> screen_found st.2 = true ->
  run_call c st = (Ret NoReply, issued (cmd_of c) st).
Proof.
  intros Hc Ho Hs. rewrite command_is_issue by done.
  unfold bind at 1. by rewrite issue_open by done.
Qed.

Lemma run_call_closed (c : call) (st : state) :
  closed st.1 = true -> run_call c st = (Raise connection_is_closed, st).
Proof.
  intros H. destruct c; cbn [run_call]; unfold bind at 1;
    unfold init_search, run_tac, clear_search, collect, close;
    by rewrite closed_raises.
Qed.

Lemma collect_open (s : Self) (w : World) :
  closed s = false ->
  collect (s, w) =
  let '(o, q, lines) := collect_loop (file_open s) (feed w) (queries s) [] in
  (o, (mkSelf false (filename s) (file_open s) (START s) (QUERY s) (EXIT s) q,
       with_feed lines w)).
Proof.
  intros Hc. unfold collect, bind, check_open. rewrite Hc. simpl.
  destruct (collect_loop _ _ _ _) as [[o q] lines]. simpl. by rewrite Hc.
Qed.

Lemma close_open (s : Self) (w : World) :
  closed s = false -> screen_found w = true -> filename s ∈ files w ->
  close (s, w) =
  (Ret tt,
   (mkSelf true (filename s) false (START s) (QUERY s) (EXIT s) (queries s),
    mkWorld (n_conns w) (screen_found w) (files w ∖ {[filename s]})
            (spawned w ++ [(None, EXIT s)]) (feed w))).
Proof.
  intros Hc Hs Hf. destruct w. simpl in Hs, Hf. subst.
  unfold close, bind, check_open, set_closed, set_file_open, in_world, subprocess_run,
    os_remove, ret, with_spawn. rewrite Hc. simpl.
  by rewrite decide_True.
Qed.

(** Whatever [close] does, the connection is closed afterwards. *)
Lemma close_closes (st : state) : closed (close st).2.1 = true.
Proof.
  destruct st as [s w].
  unfold close, bind, check_open, set_closed, set_file_open, in_world, subprocess_run,
    os_remove, ret, raise.
  destruct (closed s) eqn:Hc; simpl; [done|].
  destruct (screen_found w); simpl; [|done].
  by destruct (decide _).
Qed.

Lemma init_ready (path tmp : str) (w w' : World) (s : Self) :
  init path tmp w = (Ret s, w') ->
  ready (s, w') /\ queries s = 0 /\ filename s = tmp.
Proof.
  unfold init, subprocess_run. cbn [screen_found].
  destruct (screen_found w) eqn:Hs; [|done].
  intros [= <- <-]. unfold ready. simpl. split_and!; try done.
  apply elem_of_union; left. by apply elem_of_singleton.
Qed.

Lemma init_found (path tmp : str) (w : World) :
  screen_found w = true -> exists s w', init path tmp w = (Ret s, w').
Proof.
  intros Hs. unfold init, subprocess_run. cbn [screen_found]. rewrite Hs. by eexists _, _.
Qed.

End Protocol.

(** ** The loop of [collect] *)

(** One more line in front of [candidates], given whether it is one. *)
Ltac candidates_step Hc :=
  unfold candidates in *; cbn [List.filter] in *; rewrite Hc in *.

Section Collect.
Context {U : UnicodeData}.

Lemma collect_line_noise (line : str) (q : Z) (result : list record) :
  is_candidate line = false -> collect_line line q result = Ret (q, result).
Proof.
  destruct line as [|c line]; [done|]. simpl. by intros ->.
Qed.

Lemma collect_line_candidate (line : str) (q : Z) (result : list record) :
  is_candidate line = true ->
  exists r, parse_response line = Ret r
            /\ collect_line line q result = Ret (q - 1, result ++ [r]).
Proof.
  destruct line as [|c line]; [done|]. intros H.
  destruct (parse_response_total (c :: line)) as [r Hr]. exists r. split; [done|].
  unfold collect_line. simpl in H. by rewrite H, Hr.
Qed.

Lemma collect_loop_done (o : bool) (lines : list str) (q : Z) (result : list record) :
  q <= 0 -> collect_loop o lines q result = (Ret result, q, lines).
Proof.
  intros Hq. destruct lines; simpl; by rewrite (proj2 (Z.ltb_ge 0 q)).
Qed.

Lemma collect_loop_step (line : str) (lines : list str) (q : Z) (result : list record) :
  0 < q ->
  collect_loop true (line :: lines) q result =
  match collect_line line q result with
  | Ret (q', result') => collect_loop true lines q' result'
  | Raise e => (Raise e, q, lines)
  | Hang => (Hang, q, lines)
  end.
Proof. intros Hq. cbn [collect_loop]. by rewrite (proj2 (Z.ltb_lt 0 q)). Qed.


(** With too few candidate lines the loop never returns. *)
Lemma collect_loop_starved (lines : list str) (q : Z) (result : list record) :
  (length (candidates lines) < Z.to_nat q)%nat ->
  (collect_loop true lines q result).1.1 = Hang.
Proof.
  revert q result. induction lines as [|line lines IH]; intros q result Hen.
  - simpl. by rewrite (proj2 (Z.ltb_lt 0 q)) by lia.
  - rewrite collect_loop_step by lia.
    destruct (is_candidate line) eqn:Hc.
    + destruct (collect_line_candidate line q result Hc) as (r & Hr & ->).
      candidates_step Hc. cbn [length] in Hen.
      apply IH. lia.
    + rewrite collect_line_noise by done.
      candidates_step Hc.
      by apply IH.
Qed.

(** The counter never goes below zero in the loop. *)
Lemma collect_loop_nonneg (o : bool) (lines : list str) (q : Z) (result : list record) :
  0 <= q -> 0 <= (collect_loop o lines q result).1.2.
Proof.
  revert q result. induction lines as [|line lines IH]; intros q result Hq.
  - simpl. destruct (0 <? q); [destruct o|]; done.
  - cbn [collect_loop]. destruct (0 <? q) eqn:Hpos; [|done].
    destruct o; [|done]. apply Z.ltb_lt in Hpos.
    destruct (is_candidate line) eqn:Hc.
    + destruct (collect_line_candidate line q result Hc) as (r & Hr & ->).
      apply IH. lia.
    + rewrite collect_line_noise by done. by apply IH.
Qed.

(** A line that is no candidate changes neither the outcome nor the
    counter, wherever it stands in the feed. *)
Lemma collect_loop_noise (o : bool) (line : str) (pre post : list str)
    (q : Z) (result : list record) :
  is_candidate line = false ->
  (collect_loop o (pre ++ line :: post) q result).1
  = (collect_loop o (pre ++ post) q result).1.
Proof.
  intros Hn. revert q result. induction pre as [|l pre IH]; intros q result.
  - cbn [app]. destruct (Z.ltb_spec 0 q) as [Hq|Hq].
    + destruct o.
      * rewrite collect_loop_step, collect_line_noise by done. done.
      * destruct post; simpl; by rewrite (proj2 (Z.ltb_lt 0 q)).
    + by rewrite !collect_loop_done.
  - cbn [app collect_loop]. destruct (0 <? q); [|done]. destruct o; [|done].
    destruct (collect_line l q result) as [[q' result']| |]; [apply IH|done|done].
Qed.

End Collect.

(** ** Commands and their collection *)

Section Session.
Context {U : UnicodeData}.




(** When the log yields fewer candidate lines than commands went out,
    [collect()] never returns. *)
Lemma collect_starved (s : Self) (w : World) :
  closed s = false -> file_open s = true ->
  (length (candidates (feed w)) < Z.to_nat (queries s))%nat ->
  (collect (s, w)).1 = Hang.
Proof.
  intros Hc Ho Hlt. rewrite collect_open, Ho by done.
  pose proof (collect_loop_starved (feed w) (queries s) [] Hlt) as H.
  by destruct (collect_loop _ _ _ _) as [[o q] l].
Qed.

End Session.

(** ** Decoding response lines *)

Lemma Forall_join (P : char -> Prop) (sep : str) (parts : list str) :
  Forall P sep -> Forall (Forall P) parts -> Forall P (join sep parts).
Proof.
  intros Hsep. induction 1 as [|p parts Hp _ IH]; [constructor|].
  destruct parts as [|p' parts]; [done|].
  change (join sep (p :: p' :: parts)) with (p ++ sep ++ join sep (p' :: parts)).
  rewrite !Forall_app. done.
Qed.


(** ** The digit limit *)



Lemma leading_whole (p : char -> bool) (s : str) : forallb p s = true -> leading p s = s.
Proof.
  induction s as [|c s IH]; [done|]. simpl. intros [-> Hs]%andb_true_iff. by rewrite IH.
Qed.

(** The digits that [int] counts in the text between the quotes of a
    match of [int_re]. *)
Lemma inner_leading_digits (ds rest : str) :
  forallb is_digit ds = true ->
  leading is_digit (inner (DQ :: ds ++ DQ :: rest)) = ds.
Proof.
  intros Hds. destruct rest as [|c rest _] using rev_ind.
  - rewrite inner_quoted. by apply leading_whole.
  - replace (DQ :: ds ++ DQ :: rest ++ [c]) with (DQ :: (ds ++ DQ :: rest) ++ [c])
      by (by rewrite <- app_assoc).
    rewrite inner_quoted. by apply leading_app_stop.
Qed.

Lemma quoted_length (ds : str) : length (quoted ds) = S (S (length ds)).
Proof. unfold quoted. cbn [length]. rewrite length_app. cbn [length]. lia. Qed.

Lemma short_within_limit (v : str) :
  Z.of_nat (length v) <= int_max_str_digits -> within_int_limit v.
Proof. intros H ds -> _. rewrite quoted_length in H. lia. Qed.

Section LimitedDecoder.
Context {U : UnicodeData}.

(** With the limit the decoder does what it does without, or it raises
    the error of the limit on a quoted run of too many digits. *)
Lemma decode_value_limited_cases (v : str) :
  (decode_value_limited v = decode_value v
   /\ forall ds rest, v = DQ :: ds ++ DQ :: rest -> ds <> [] -> forallb is_digit ds = true ->
        Z.of_nat (length ds) <= int_max_str_digits)
  \/ (exists ds rest,
        v = DQ :: ds ++ DQ :: rest /\ ds <> [] /\ forallb is_digit ds = true
        /\ int_max_str_digits < Z.of_nat (length ds)
        /\ decode_value_limited v = Raise (digit_limit_error (length ds))).
Proof.
  unfold decode_value_limited, decode_value.
  destruct (str_eqb v (lit "null")) eqn:En.
  { left. split; [done|]. intros ds rest -> _ _. by rewrite not_null_quoted in En. }
  destruct (re_match 0 int_re v) as [x|] eqn:Em.
  - apply int_match_sound in Em as (ds & rest & -> & Hne & Hds).
    unfold int_limited. rewrite inner_leading_digits by done.
    destruct (Z.ltb_spec int_max_str_digits (Z.of_nat (length ds))) as [Hlt|Hle].
    + right. by exists ds, rest.
    + left. split; [done|]. intros ds' rest' E _ Hds'. injection E as E.
      apply first_occurrence in E as [<- _]; [done|by apply digits_no_quote..].
  - left. split; [done|]. intros ds rest -> Hne Hds.
    by rewrite int_match_complete in Em.
Qed.

Lemma decode_value_limited_within (v : str) :
  pair_value v -> within_int_limit v -> decode_value_limited v = decode_value v.
Proof.
  intros Hv Hw. destruct (decode_value_limited_cases v) as [[E _]|H]; [done|].
  destruct H as (ds & rest & -> & Hne & Hds & Hlt & _). exfalso.
  destruct Hv as [E|[(b & E & _)|(b & E & Hb)]]; [done|done|].
  injection E as E.
  assert (DQ ∉ b) as Hq.
  { intros Hin. rewrite Forall_forall in Hb. by apply (Hb _ Hin). }
  change (b ++ [DQ]) with (b ++ DQ :: []) in E.
  apply first_occurrence in E as [-> ->]; [|by apply digits_no_quote|done].
  specialize (Hw b eq_refl Hds). lia.
Qed.


Lemma parse_pairs_limited_cases (pairs : list (list str)) (acc : record) :
  parse_pairs_limited pairs acc = parse_pairs pairs acc
  \/ (exists g ds rest,
        g ∈ pairs /\ nth 1 g [] = DQ :: ds ++ DQ :: rest /\ forallb is_digit ds = true
        /\ int_max_str_digits < Z.of_nat (length ds)
        /\ parse_pairs_limited pairs acc = Raise (digit_limit_error (length ds))).
Proof.
  revert acc. induction pairs as [|g pairs IH]; intros acc; [by left|].
  cbn [parse_pairs_limited parse_pairs].
  destruct (decode_value_limited_cases (nth 1 g [])) as [[E _]|H].
  - rewrite E. destruct (decode_value (nth 1 g [])) as [x|e|]; [|by left..].
    destruct (IH (<[nth 0 g [] := x]> acc)) as [E'|(g' & ds & rest & Hin & H)]; [by left|].
    right. exists g', ds, rest. split; [by right|done].
  - destruct H as (ds & rest & Ev & _ & Hds & Hlt & ->).
    right. exists g, ds, rest. split; [by left|done].
Qed.

Lemma parse_pairs_limited_within (pairs : list (list str)) (acc : record) :
  Forall (fun g : list str => pair_value (nth 1 g []) /\ within_int_limit (nth 1 g [])) pairs ->
  parse_pairs_limited pairs acc = parse_pairs pairs acc.
Proof.
  intros H. revert acc. induction H as [|g pairs [Hv Hw] _ IH]; intros acc; [done|].
  cbn [parse_pairs_limited parse_pairs]. rewrite decode_value_limited_within by done.
  by destruct (decode_value _).
Qed.

(** Whenever the decoder returns under the limit, it returns the same
    record without. *)
Lemma limited_returns (line : str) (r : record) :
  parse_response_limited line = Ret r -> parse_response line = Ret r.
Proof.
  unfold parse_response_limited, parse_response.
  destruct (parse_pairs_limited_cases (findall 2 pair_re line) ∅) as [->|H]; [done|].
  destruct H as (g & ds & rest & _ & _ & _ & _ & ->). done.
Qed.



End LimitedDecoder.

Section DecodeRules.
Context {U : UnicodeData}.


Lemma quoted_value (b : str) : DQ ∉ b -> pair_value (quoted b).
Proof.
  intros Hb. right; right. eexists; split; [done|].
  apply Forall_forall. by intros c Hc ->.
Qed.


End DecodeRules.


(** ** Newlines on the wire and back *)

(** C3, as stated, fails: the tactic made of a backslash, the letter n
    and a newline holds a newline, and escaping followed by unescaping
    turns it into two newlines. *)
Lemma newline_roundtrip_fails :
  NL ∈ [BS; LETTER_n; NL]
  /\ unescape_newlines (escape_newlines [BS; LETTER_n; NL]) = [NL; NL]
  /\ unescape_newlines (escape_newlines [BS; LETTER_n; NL]) <> [BS; LETTER_n; NL].
Proof. split_and!; [by repeat constructor|reflexivity|discriminate]. Qed.

(** C3, amended: for every tactic in which no backslash is directly
    followed by the letter n, the escaping of [run_tac] followed by the
    unescaping of the decoder gives the tactic back, newlines included. *)
Theorem newline_roundtrip (tactic : str) :
  contains ESC_NL tactic = false ->
  unescape_newlines (escape_newlines tactic) = tactic.
Proof.
  induction tactic as [|c s IH]; [done|].
  intros H. cbn [contains] in H.
  destruct (strip ESC_NL (c :: s)) eqn:Hs; [discriminate|].
  specialize (IH H). rewrite escape_cons.
  destruct (N.eqb_spec NL c) as [<-|Hc].
  - cbn [app ESC_NL]. by rewrite unescape_esc, IH.
  - cbn [app]. rewrite unescape_other, IH; [done|].
    by apply escape_no_new_escape.
Qed.

(** ** Lines that are no responses *)

Section Noise.
Context {U : UnicodeData}.

(** C4: a line that does not start with an opening brace leaves the
    counter and the result list of [collect()] as they are; wherever the
    line stands in the log, [collect()] has the same outcome, the same
    records included, and leaves the same counter as without it. *)
Theorem noise_is_ignored (line : str) :
  is_candidate line = false ->
  (forall q result, collect_line line q result = Ret (q, result))
  /\ (forall s w pre post,
        (collect (s, with_feed (pre ++ line :: post) w)).1
          = (collect (s, with_feed (pre ++ post) w)).1
        /\ queries (collect (s, with_feed (pre ++ line :: post) w)).2.1
          = queries (collect (s, with_feed (pre ++ post) w)).2.1).
Proof.
  intros Hn. split; [intros; by apply collect_line_noise|].
  intros s w pre post. destruct (closed s) eqn:Hc.
  - unfold collect. by rewrite !closed_raises.
  - rewrite !collect_open by done. cbn [with_feed feed].
    pose proof (collect_loop_noise (file_open s) line pre post (queries s) [] Hn) as H.
    destruct (collect_loop _ (pre ++ line :: post) _ _) as [[o1 q1] l1].
    destruct (collect_loop _ (pre ++ post) _ _) as [[o2 q2] l2].
    simpl in H. by injection H as -> ->.
Qed.

(** ** The closed connection *)

(** C5: once [close()] has run, every public method raises the error of
    the closed connection and changes nothing; [close()] itself does so
    when it is called again. *)
Theorem closed_connection_rejects (st : state) :
  let st' := (close st).2 in
  (forall name namespaces,
      init_search name namespaces st' = (Raise connection_is_closed, st'))
  /\ (forall sid tid tactic, run_tac sid tid tactic st' = (Raise connection_is_closed, st'))
  /\ (forall sid, clear_search sid st' = (Raise connection_is_closed, st'))
  /\ collect st' = (Raise connection_is_closed, st')
  /\ close st' = (Raise connection_is_closed, st').
Proof.
  intros st'. pose proof (close_closes st) as H. fold st' in H.
  split_and!; intros; by apply closed_raises.
Qed.

(** ** Candidate lines without a pair *)

(** C6: a candidate line in which no pair of the grammar starts decodes
    to the record without fields and nothing is raised; [collect()]
    appends that record and takes one off the counter. *)
Theorem malformed_candidate (line : str) (q : Z) (result : list record) :
  is_candidate line = true -> no_pair line ->
  parse_response line = Ret ∅
  /\ collect_line line q result = Ret (q - 1, result ++ [∅])
  /\ (0 < q -> forall lines,
        collect_loop true (line :: lines) q result
        = collect_loop true lines (q - 1) (result ++ [∅])).
Proof.
  intros Hc Hn.
  assert (parse_response line = Ret ∅) as Hp.
  { unfold parse_response. by rewrite findall_no_pair. }
  destruct (collect_line_candidate line q result Hc) as (r & Hr & E).
  assert (r = ∅) as -> by congruence.
  split_and!; [done|done|].
  intros Hq lines. by rewrite collect_loop_step, E.
Qed.

(** A line without a double quote holds no pair. *)
Lemma no_quote_no_pair (line : str) : DQ ∉ line -> no_pair line.
Proof.
  intros Hq pre suf -> (key & value & rest & -> & _).
  apply Hq, elem_of_app. right. by left.
Qed.

(** A line in which a pair starts somewhere decodes to at least one
    match of the pattern. *)
Lemma findall_pair (pre suf : str) :
  pair_at suf -> findall 2 pair_re (pre ++ suf) <> [].
Proof.
  intros (key & value & rest & -> & Hne & Hk & Hv).
  induction pre as [|c pre IH]; unfold findall.
  - cbn [app findall_from]. rewrite re_match_pair, scan_pair_complete by done. done.
  - cbn [app findall_from]. by destruct (re_match 2 pair_re _) as [[r g]|].
Qed.

(** The lines without a pair are those on which the pattern finds
    nothing. *)
Lemma no_pair_findall (line : str) : no_pair line <-> findall 2 pair_re line = [].
Proof.
  split; [apply findall_no_pair|].
  intros H pre suf -> Hp. by apply (findall_pair pre suf Hp).
Qed.

End Noise.

Section Wire.
Context {U : UnicodeData}.

Lemma init_search_wire (name : str) :
  wire_text (init_search_cmd name)
  = qlit "['init_search', [" ++ replace [SQ] [DQ] (repr_str name) ++ qlit ", '']]".
Proof.
  unfold wire_text, init_search_cmd. rewrite !wire_replace.
  cbn [py_str repr map join]. generalize (repr_str name). intros r.
  rewrite !map_app. cbn [map]. rewrite !map_app.
  rewrite <- ?app_assoc; cbn [app]; rewrite <- ?app_assoc.
  reflexivity.
Qed.

(** C7: whatever the name and whatever the list of namespaces,
    [init_search] sends the command whose second argument is the empty
    text: two calls that differ in the namespaces do the same, and the
    text on the wire is the list of init_search and of the pair of the
    quoted name and the empty quoted text. *)
Theorem init_search_second_argument (name : str) (ns1 ns2 : list str) (st : state) :
  init_search name ns1 st = init_search name ns2 st
  /\ wire_text (init_search_cmd name)
     = qlit "['init_search', [" ++ replace [SQ] [DQ] (repr_str name) ++ qlit ", '']]"
  /\ (closed st.1 = false -> screen_found st.2 = true ->
      init_search name ns1 st = (Ret tt, issued (init_search_cmd name) st)).
Proof.
  split_and!; [done|apply init_search_wire|].
  intros Hc Hs. by apply (issue_open (init_search_cmd name)).
Qed.

(** C10: the text on the wire is [str(cmd)] with every apostrophe turned
    into a double quote, so no apostrophe is ever sent; [run_tac] sends
    such a text, in which a tactic that holds an apostrophe does not
    occur as it was given.  The tactic it's goes out as it, a double
    quote and s. *)
Theorem apostrophes_become_quotes (cmd : pyval) (sid tid : Z) (tactic : str) (st : state) :
  wire_text cmd = map (fun c => if N.eqb c SQ then DQ else c) (py_str cmd)
  /\ (SQ ∉ wire_text cmd)
  /\ (closed st.1 = false -> screen_found st.2 = true ->
      run_tac sid tid tactic st = (Ret tt, issued (run_tac_cmd sid tid tactic) st))
  /\ (SQ ∈ tactic ->
      contains tactic (wire_text (run_tac_cmd sid tid tactic) ++ [NL]) = false)
  /\ wire_text (run_tac_cmd 1 2 (lit "it's")) = qlit "['run_tac', ['1', '2', 'it's']]".
Proof.
  split_and!.
  - apply wire_replace.
  - apply wire_no_apostrophe.
  - intros Hc Hs. by apply (issue_open (run_tac_cmd sid tid tactic)).
  - intros Hin. apply not_true_is_false. intros Hcon.
    pose proof (contains_elem _ _ _ Hcon Hin) as [H|H]%elem_of_app.
    + by apply wire_no_apostrophe in H.
    + by apply list_elem_of_singleton in H.
  - vm_compute. reflexivity.
Qed.

End Wire.

(** ** The counter *)

Section Counter.
Context {U : UnicodeData}.

Lemma command_counts (c : call) (st : state) :
  is_command c = true -> closed st.1 = false ->
  queries (run_call c st).2.1 = queries st.1 + 1.
Proof.
  intros Hc Ho. rewrite command_is_issue by done.
  destruct st as [[] []]. simpl in Ho. subst.
  unfold bind, issue, bind, send_query, in_world, subprocess_run. simpl.
  by destruct screen_found0.
Qed.

Lemma run_call_nonneg (c : call) (st : state) :
  0 <= queries st.1 -> 0 <= queries (run_call c st).2.1.
Proof.
  intros Hq. destruct (closed st.1) eqn:Ho; [by rewrite run_call_closed|].
  destruct (is_command c) eqn:Hc; [rewrite command_counts by done; lia|].
  destruct st as [s w]. simpl in Hq, Ho. destruct c; try done.
  - cbn [run_call]. unfold bind at 1. rewrite collect_open by done.
    pose proof (collect_loop_nonneg (file_open s) (feed w) (queries s) [] Hq) as H.
    destruct (collect_loop _ _ _ _) as [[[rs|e|] q] l]; exact H.
  - cbn [run_call]. destruct s, w. simpl in Ho, Hq. subst.
    unfold bind, close, bind, in_world, subprocess_run, os_remove. simpl.
    destruct screen_found0; simpl; [|done]. by destruct (decide _).
Qed.

Lemma run_block_nonneg {A} (b : block A) (st : state) :
  0 <= queries st.1 -> 0 <= queries (run_block b st).2.1.
Proof.
  revert st. induction b as [a|e|c k IH]; intros st Hq; [done|done|].
  cbn [run_block]. pose proof (run_call_nonneg c st Hq) as H.
  destruct (run_call c st) as [[r|e|] st']; [by apply IH|by apply IH|done].
Qed.

(** C8: the counter is zero when the connection is built and is never
    negative afterwards, whatever the caller does: every public method
    keeps it at or above zero, a command-issuing call on an open
    connection adds one, and the loop of [collect()] takes one off for a
    candidate line only while the counter is positive. *)
Theorem queries_never_negative (path tmp : str) (w w0 : World) (s0 : Self) :
  init path tmp w = (Ret s0, w0) ->
  queries s0 = 0
  /\ (forall A (b : block A), 0 <= queries (run_block b (s0, w0)).2.1)
  /\ (forall c st, 0 <= queries st.1 -> 0 <= queries (run_call c st).2.1)
  /\ (forall c st, is_command c = true -> closed st.1 = false ->
        queries (run_call c st).2.1 = queries st.1 + 1)
  /\ (forall o lines q result, 0 <= q -> 0 <= (collect_loop o lines q result).1.2).
Proof.
  intros Hi. apply init_ready in Hi as (_ & H0 & _).
  split_and!; [done| | | |].
  - intros A b. apply run_block_nonneg. simpl. lia.
  - apply run_call_nonneg.
  - apply command_counts.
  - apply collect_loop_nonneg.
Qed.

End Counter.

(** ** The scoped helper *)

Section Scoped.
Context {U : UnicodeData}.

Lemma close_never_hangs (st : state) : (close st).1 <> Hang.
Proof.
  destruct st as [[] []].
  unfold close, bind, check_open, in_world, subprocess_run, os_remove. simpl.
  destruct closed0; simpl; [done|]. destruct screen_found0; simpl; [|done].
  by destruct (decide _).
Qed.

Lemma close_tidy (tmp : str) (ex : list str) (st : state) :
  tidy tmp ex st -> tidy tmp ex (close st).2.
Proof.
  intros (Hf & He & Hs & [[Ho Hin]|[Ho Hout]]).
  - destruct st as [s w]. simpl in *. subst. rewrite close_open by done.
    unfold tidy. simpl. split_and!; try done. right. split_and!; [done| |].
    + intros [_ H]%elem_of_difference. apply H. by apply elem_of_singleton.
    + apply elem_of_app. right. by left.
  - unfold close. rewrite closed_raises by done. unfold tidy. by split_and!; [..|right].
Qed.

Lemma run_call_tidy (tmp : str) (ex : list str) (c : call) (st : state) :
  tidy tmp ex st -> tidy tmp ex (run_call c st).2.
Proof.
  intros Ht. destruct (closed st.1) eqn:Ho; [by rewrite run_call_closed|].
  pose proof Ht as (Hf & He & Hs & [[_ Hin]|[Hc _]]); [|congruence].
  destruct (is_command c) eqn:Hc.
  { rewrite command_open by done. unfold tidy. simpl. split_and!; try done.
    left. by rewrite Ho. }
  destruct c; try done.
  - destruct st as [s w]. simpl in *. cbn [run_call]. unfold bind at 1.
    rewrite collect_open by done.
    destruct (collect_loop _ _ _ _) as [[[rs|e|] q] l];
      unfold tidy; simpl; split_and!; try done; by left.
  - cbn [run_call]. unfold bind at 1. pose proof (close_tidy tmp ex st Ht) as H.
    by destruct (close st) as [[[]|e|] st'].
Qed.

Lemma run_block_tidy {A} (tmp : str) (ex : list str) (b : block A) (st : state) :
  tidy tmp ex st -> tidy tmp ex (run_block b st).2.
Proof.
  revert st. induction b as [a|e|c k IH]; intros st Ht; [done|done|].
  cbn [run_block]. pose proof (run_call_tidy tmp ex c st Ht) as H.
  destruct (run_call c st) as [[r|e|] st']; [by apply IH|by apply IH|done].
Qed.

Lemma init_tidy (path tmp : str) (w w0 : World) (s0 : Self) :
  init path tmp w = (Ret s0, w0) -> tidy tmp (EXIT s0) (s0, w0).
Proof.
  intros (Hr & _ & Hf)%init_ready. destruct Hr as (Ho & _ & Hs & Hin).
  simpl in *. unfold tidy. simpl. split_and!; try done. left. by rewrite <- Hf.
Qed.

Lemma finally_close_state {A} (body : M A) (st : state) :
  (finally_close body st).1 = Hang <-> (body st).1 = Hang.
Proof.
  unfold finally_close. destruct (body st) as [[a|e|] st']; simpl.
  - pose proof (close_never_hangs st') as H.
    destruct (close st') as [[[]|e'|] st'']; simpl in *; split; congruence.
  - pose proof (close_never_hangs st') as H.
    destruct (close st') as [[[]|e'|] st'']; simpl in *; split; congruence.
  - done.
Qed.

Lemma finally_close_closed {A} (body : M A) (st : state) :
  (finally_close body st).1 <> Hang ->
  (finally_close body st).2 = (close (body st).2).2.
Proof.
  unfold finally_close. destruct (body st) as [[a|e|] st']; simpl.
  - by destruct (close st') as [[[]|e'|] st''].
  - by destruct (close st') as [[[]|e'|] st''].
  - done.
Qed.

(** C9: when [screen] is there, [invoke_lean] builds the connection and
    runs the block; it ends exactly when the block ends, and then,
    whether the block returned or raised, [close()] has run: the
    connection is closed, its quit command went out and its log no longer
    exists. *)
Theorem invoke_lean_closes {A} (path tmp : str) (body : block A) (w : World) :
  screen_found w = true ->
  exists s0 w0,
    init path tmp w = (Ret s0, w0)
    /\ ((invoke_lean path tmp body w).1.1 = Hang
        <-> (run_block body (s0, w0)).1 = Hang)
    /\ ((invoke_lean path tmp body w).1.1 <> Hang ->
        exists s, (invoke_lean path tmp body w).1.2 = Some s
                  /\ closed s = true
                  /\ (tmp ∉ files (invoke_lean path tmp body w).2)
                  /\ (None, EXIT s0) ∈ spawned (invoke_lean path tmp body w).2).
Proof.
  intros Hs. destruct (init_found path tmp w Hs) as (s0 & w0 & Hi).
  exists s0, w0. split; [done|].
  pose proof (init_tidy _ _ _ _ _ Hi) as Ht.
  unfold invoke_lean. rewrite Hi.
  pose proof (finally_close_state (run_block body) (s0, w0)) as Hh.
  pose proof (finally_close_closed (run_block body) (s0, w0)) as Hc.
  pose proof (close_closes (run_block body (s0, w0)).2) as Hcl.
  pose proof (close_tidy _ _ _ (run_block_tidy tmp (EXIT s0) body (s0, w0) Ht)) as Hty.
  destruct (finally_close (run_block body) (s0, w0)) as [o [s' w'']]. simpl in *.
  split; [done|]. intros Hn. specialize (Hc Hn). rewrite <- Hc in Hcl, Hty.
  destruct Hty as (_ & _ & _ & [[Ho _]|(_ & Hout & Hex)]); simpl in *; [congruence|].
  by exists s'.
Qed.

End Scoped.

(** * The theorems at sample inputs *)



Lemma newline_roundtrip_witness :
  contains ESC_NL sample_tactic = false
  /\ unescape_newlines (escape_newlines sample_tactic) = sample_tactic.
Proof.
  split; [reflexivity|]. apply newline_roundtrip. reflexivity.
Defined.

Lemma noise_is_ignored_witness :
  is_candidate (lit "Lean (version 3.30.0)") = false
  /\ collect_line (U := latin1) (lit "Lean (version 3.30.0)") 2 [] = Ret (2, []).
Proof.
  split; [reflexivity|].
  apply (noise_is_ignored (U := latin1) (lit "Lean (version 3.30.0)")). reflexivity.
Defined.

Lemma malformed_candidate_witness :
  is_candidate (lit "{ }") = true
  /\ no_pair (U := latin1) (lit "{ }")
  /\ parse_response (U := latin1) (lit "{ }") = Ret ∅
  /\ collect_line (U := latin1) (lit "{ }") 2 [] = Ret (1, [∅]).
Proof.
  assert (is_candidate (lit "{ }") = true) as H1 by reflexivity.
  assert (no_pair (U := latin1) (lit "{ }")) as H2.
  { apply no_pair_findall. vm_compute. reflexivity. }
  split_and!; [exact H1|exact H2| |].
  - apply (malformed_candidate (U := latin1) (lit "{ }") 2 [] H1 H2).
  - apply (malformed_candidate (U := latin1) (lit "{ }") 2 [] H1 H2).
Defined.

Lemma init_search_second_argument_witness :
  closed (sample_state []).1 = false
  /\ screen_found (sample_state []).2 = true
  /\ init_search (U := latin1) (lit "nat.add_comm") [lit "nat"] (sample_state [])
     = (Ret tt, issued (U := latin1) (init_search_cmd (lit "nat.add_comm")) (sample_state [])).
Proof.
  split_and!; [reflexivity|reflexivity|].
  apply (init_search_second_argument (U := latin1) (lit "nat.add_comm") [lit "nat"] []
           (sample_state [])); reflexivity.
Defined.

Lemma queries_never_negative_witness :
  init (lit "/opt/lean-gym") (lit "/tmp/tmpk3x") (sample_world sample_lines)
    = (Ret (sample_state sample_lines).1, (sample_state sample_lines).2)
  /\ 0 <= queries (run_block (U := latin1) sample_block (sample_state sample_lines)).2.1.
Proof.
  assert (init (lit "/opt/lean-gym") (lit "/tmp/tmpk3x") (sample_world sample_lines)
          = (Ret (sample_state sample_lines).1, (sample_state sample_lines).2)) as H
    by reflexivity.
  split; [exact H|].
  apply (queries_never_negative (U := latin1) _ _ _ _ _ H).
Defined.

Lemma invoke_lean_closes_witness :
  screen_found (sample_world sample_lines) = true
  /\ (invoke_lean (U := latin1) (lit "/opt/lean-gym") (lit "/tmp/tmpk3x")
                  sample_block (sample_world sample_lines)).1.1 = Raise connection_is_closed
  /\ exists s,
       (invoke_lean (U := latin1) (lit "/opt/lean-gym") (lit "/tmp/tmpk3x")
                    sample_block (sample_world sample_lines)).1.2 = Some s
       /\ closed s = true
       /\ (lit "/tmp/tmpk3x"
           ∉ files (invoke_lean (U := latin1) (lit "/opt/lean-gym") (lit "/tmp/tmpk3x")
                                sample_block (sample_world sample_lines)).2).
Proof.
  split; [reflexivity|]. split; [vm_compute; reflexivity|].
  destruct (invoke_lean_closes (U := latin1) (lit "/opt/lean-gym") (lit "/tmp/tmpk3x")
              sample_block (sample_world sample_lines) eq_refl)
    as (s0 & w0 & Hi & _ & Hc).
  destruct Hc as (s & Hs & Hcl & Hf & _).
  { vm_compute. discriminate. }
  by exists s.
Defined.

Lemma apostrophes_become_quotes_witness :
  closed (sample_state []).1 = false
  /\ screen_found (sample_state []).2 = true
  /\ SQ ∈ lit "it's"
  /\ contains (lit "it's")
       (wire_text (U := latin1) (run_tac_cmd 1 2 (lit "it's")) ++ [NL]) = false.
Proof.
  assert (SQ ∈ lit "it's") as H by (vm_compute; repeat constructor).
  split_and!; [reflexivity|reflexivity|exact H|].
  by apply (apostrophes_become_quotes (U := latin1) (PList []) 1 2 (lit "it's")
              (sample_state [])).
Defined.

(** * Further properties *)

(** ** Integers as text *)

Lemma lit_String (a : ascii) (s : string) : lit (String a s) = N_of_ascii a :: lit s.
Proof. reflexivity. Qed.

Lemma digits_from_cons (acc : Z) (c : char) (s : str) :
  digits_from acc (c :: s) = digits_from (10 * acc + (Z.of_N c - 48)) s.
Proof. reflexivity. Qed.

Lemma digits_from_pos (d : Decimal.uint) (acc : positive) :
  digits_from (Zpos acc) (lit (NilEmpty.string_of_uint d)) = Zpos (Pos.of_uint_acc d acc).
Proof.
  revert acc. induction d; intros acc; cbn [NilEmpty.string_of_uint Pos.of_uint_acc];
    [done|rewrite lit_String, digits_from_cons, <- IHd; f_equal;
          simpl (Z.of_N _); unfold Pos.of_uint_acc; lia..].
Qed.

Lemma digits_from_zero (d : Decimal.uint) :
  digits_from 0 (lit (NilEmpty.string_of_uint d)) = Z.of_N (Pos.of_uint d).
Proof.
  induction d; cbn [NilEmpty.string_of_uint Pos.of_uint];
    [done|rewrite lit_String, digits_from_cons..].
  - exact IHd.
  - simpl (10 * 0 + _). apply digits_from_pos.
  - simpl (10 * 0 + _). apply digits_from_pos.
  - simpl (10 * 0 + _). apply digits_from_pos.
  - simpl (10 * 0 + _). apply digits_from_pos.
  - simpl (10 * 0 + _). apply digits_from_pos.
  - simpl (10 * 0 + _). apply digits_from_pos.
  - simpl (10 * 0 + _). apply digits_from_pos.
  - simpl (10 * 0 + _). apply digits_from_pos.
  - simpl (10 * 0 + _). apply digits_from_pos.
Qed.

(** The characters of [str(n)]: decimal digits, after a minus sign when
    [n] is negative. *)
Lemma uint_digits (d : Decimal.uint) :
  forallb is_digit (lit (NilEmpty.string_of_uint d)) = true.
Proof. induction d; cbn [NilEmpty.string_of_uint]; [done|by rewrite lit_String..]. Qed.

Lemma to_uint_nonempty (p : positive) : Pos.to_uint p <> Decimal.Nil.
Proof.
  intros H. pose proof (DecimalPos.Unsigned.of_to p) as E. rewrite H in E. discriminate.
Qed.

Lemma string_of_uint_nonnil (d : Decimal.uint) :
  d <> Decimal.Nil ->
  NilZero.string_of_uint d = NilEmpty.string_of_uint d
  /\ lit (NilEmpty.string_of_uint d) <> [].
Proof. by destruct d. Qed.

Lemma str_of_int_nonneg (n : Z) :
  0 <= n ->
  str_of_int n <> [] /\ forallb is_digit (str_of_int n) = true
  /\ digits_value (str_of_int n) = n.
Proof.
  intros Hn. unfold str_of_int. destruct n as [|p|p]; [done| |lia].
  cbn [Z.to_int NilZero.string_of_int].
  destruct (string_of_uint_nonnil _ (to_uint_nonempty p)) as [-> Hne].
  split_and!; [done|apply uint_digits|].
  change (digits_value ?s) with (digits_from 0 s).
  by rewrite digits_from_zero, DecimalPos.Unsigned.of_to.
Qed.

Lemma str_of_int_neg (n : Z) :
  n < 0 ->
  exists ds, str_of_int n = MINUS :: ds /\ ds <> [] /\ forallb is_digit ds = true.
Proof.
  intros Hn. unfold str_of_int. destruct n as [|p|p]; [lia|lia|].
  cbn [Z.to_int NilZero.string_of_int].
  destruct (string_of_uint_nonnil _ (to_uint_nonempty p)) as [E Hne].
  exists (lit (NilEmpty.string_of_uint (Pos.to_uint p))).
  rewrite E. split_and!; [done|done|apply uint_digits].
Qed.

Lemma str_of_int_chars (n : Z) :
  Forall (fun c => is_digit c = true \/ c = MINUS) (str_of_int n).
Proof.
  destruct (Z.lt_ge_cases n 0) as [Hn|Hn].
  - destruct (str_of_int_neg n Hn) as (ds & -> & _ & Hds).
    constructor; [by right|]. apply forallb_Forall_true in Hds.
    eapply Forall_impl; [done|]. by left.
  - destruct (str_of_int_nonneg n Hn) as (_ & Hds & _).
    apply forallb_Forall_true in Hds. eapply Forall_impl; [done|]. by left.
Qed.

Lemma lit_inj (s t : string) : lit s = lit t -> s = t.
Proof.
  revert t. induction s as [|a s IH]; intros [|b t]; try done.
  rewrite !lit_String. intros [= Ha Hs]. f_equal; [|by apply IH].
  by rewrite <- (ascii_N_embedding a), <- (ascii_N_embedding b), Ha.
Qed.

Lemma to_int_proper (n : Z) :
  Z.to_int n <> Decimal.Pos Decimal.Nil /\ Z.to_int n <> Decimal.Neg Decimal.Nil.
Proof.
  destruct n as [|p|p]; cbn [Z.to_int]; split; try done.
  - intros [= H]. by apply (to_uint_nonempty p).
  - intros [= H]. by apply (to_uint_nonempty p).
Qed.

(** [str] is one-to-one on the integers. *)
Lemma str_of_int_inj (n m : Z) : str_of_int n = str_of_int m -> n = m.
Proof.
  intros H%lit_inj.
  destruct (to_int_proper n) as [Hn1 Hn2], (to_int_proper m) as [Hm1 Hm2].
  pose proof (NilZero.isi _ Hn1 Hn2) as En. pose proof (NilZero.isi _ Hm1 Hm2) as Em.
  rewrite H, Em in En. injection En as En.
  by rewrite <- (DecimalZ.of_to n), <- (DecimalZ.of_to m), En.
Qed.

(** ** More on the decoder *)

(** Brings nested appends into the form [a :: b ++ c :: d ++ ...]. *)
Ltac list_assoc := repeat (progress (rewrite <- ?app_assoc; cbn [app])).

Lemma unescape_plain (s : str) : BS ∉ s -> unescape_newlines s = s.
Proof.
  induction s as [|c s IH]; [done|]. intros [Hc Hs]%not_elem_of_cons.
  rewrite unescape_other, IH; [done|done|]. by apply strip_head_ne.
Qed.

Lemma replace_from_keeps_out (x : char) (old new s : str) (skip : nat) :
  x ∉ s -> x ∉ new -> x ∉ replace_from old new s skip.
Proof.
  intros Hs Hn. revert skip. induction s as [|c s IH]; intros skip; [done|].
  apply not_elem_of_cons in Hs as [Hc Hs]. cbn [replace_from].
  destruct skip; [|by apply IH].
  destruct (strip old (c :: s)).
  - rewrite elem_of_app. intros [?|?]; [done|]. by eapply IH.
  - rewrite elem_of_cons. intros [?|?]; [done|]. by eapply IH.
Qed.

Lemma digits_from_nonneg (ds : str) (acc : Z) :
  0 <= acc -> forallb is_digit ds = true -> 0 <= digits_from acc ds.
Proof.
  revert acc. induction ds as [|d ds IH]; intros acc Hacc Hds; [done|].
  simpl in Hds. apply andb_true_iff in Hds as [Hd Hds].
  rewrite digits_from_cons. apply IH; [|done].
  unfold is_digit in Hd. apply andb_true_iff in Hd as [H1 H2].
  apply N.leb_le in H1. lia.
Qed.

Lemma take_leading_all (p : char -> bool) (s : str) :
  take (length s - length (after p s)) s = leading p s.
Proof. rewrite <- (leading_after p s) at 1 3. apply take_app_rest. Qed.

Lemma item_match_sound (t rest : str) (g : list str) :
  re_match 1 item_re t = Some (rest, g) ->
  exists x, g = [x] /\ (DQ ∉ x) /\ t = DQ :: x ++ DQ :: rest.
Proof.
  unfold re_match, item_re. cbn [rmatch].
  destruct (strip [DQ] t) as [s1|] eqn:E1; [|done].
  apply strip_Some in E1 as ->.
  rewrite star_greedy.
  2:{ class_stops. }
  destruct (strip [DQ] (after (none_of [DQ]) s1)) as [r|] eqn:E2; [|done].
  apply strip_Some in E2. intros [= -> <-].
  exists (leading (none_of [DQ]) s1). rewrite take_leading_all. split_and!; [done| |].
  - pose proof (leading_all (none_of [DQ]) s1) as H. apply no_quote_class in H.
    intros Hin. rewrite Forall_forall in H. by apply (H _ Hin).
  - rewrite <- (leading_after (none_of [DQ]) s1) at 1. by rewrite E2.
Qed.

Lemma pair_skip {U : UnicodeData} (pre t : str) :
  DQ ∉ pre -> findall 2 pair_re (pre ++ t) = findall 2 pair_re t.
Proof.
  induction pre as [|c pre IH]; [done|]. intros [Hc Hpre]%not_elem_of_cons.
  cbn [app]. rewrite findall_miss; [by apply IH|].
  rewrite re_match_pair. unfold scan_pair. by rewrite strip_head_ne.
Qed.

(** The matches of the scan are found at places of the text. *)
Lemma findall_from_Forall_at (n : nat) (r : regex) (P : list str -> Prop)
    (s0 s : str) (skip : nat) (pre : str) :
  s0 = pre ++ s ->
  (forall pre' t rest g, s0 = pre' ++ t -> re_match n r t = Some (rest, g) -> P g) ->
  Forall P (findall_from n r s skip).
Proof.
  intros E HP. revert skip pre E. induction s as [|c s IH]; intros skip pre E; simpl.
  - destruct skip; [|constructor].
    destruct (re_match n r []) as [[rest g]|] eqn:Em; [|constructor].
    repeat constructor. exact (HP _ _ _ _ E Em).
  - assert (s0 = (pre ++ [c]) ++ s) as E' by (by rewrite <- app_assoc).
    destruct skip; [|by eapply IH].
    destruct (re_match n r (c :: s)) as [[rest g]|] eqn:Em; [|by eapply IH].
    constructor; [exact (HP _ _ _ _ E Em)|by eapply IH].
Qed.

Section DecoderMore.
Context {U : UnicodeData}.

Lemma decode_value_ok (v : str) (x : value) :
  pair_value v -> decode_value v = Ret x -> value_ok x.
Proof.
  intros [->|[(b & -> & Hb)|(b & -> & Hb)]].
  - rewrite decode_null. intros [= <-]. exact I.
  - rewrite decode_list. intros [= <-]. simpl. apply Forall_fmap.
    apply findall_from_Forall. intros t rest g Hm.
    by apply item_match_sound in Hm as (y & -> & Hy & _).
  - assert (DQ ∉ b) as Hq.
    { intros Hin. rewrite Forall_forall in Hb. by apply (Hb _ Hin). }
    destruct b as [|c b].
    { rewrite decode_text by (done || by left). by intros [= <-]. }
    destruct (forallb is_digit (c :: b)) eqn:E.
    + rewrite decode_int by done. intros [= <-]. simpl.
      by apply (digits_from_nonneg (c :: b) 0).
    + rewrite decode_text by (done || by right). intros [= <-]. simpl.
      apply replace_from_keeps_out; [done|].
      by intros [[=]|[]%elem_of_nil]%elem_of_cons.
Qed.


Lemma parse_pairs_fold (pairs : list (list str)) (kxs : list (str * value)) (acc : record) :
  Forall2 (fun (g : list str) kx => nth 0 g [] = kx.1 /\ decode_value (nth 1 g []) = Ret kx.2)
          pairs kxs ->
  parse_pairs pairs acc = Ret (foldl (fun r kx => <[kx.1 := kx.2]> r) acc kxs).
Proof.
  intros H. revert acc. induction H as [|g kx pairs kxs [Hk Hv] _ IH]; intros acc; [done|].
  cbn [parse_pairs foldl]. by rewrite Hv, Hk, IH.
Qed.


Lemma parse_pairs_invariant (P : str -> value -> Prop) (pairs : list (list str))
    (acc r : record) :
  map_Forall P acc ->
  Forall (fun g : list str => forall x, decode_value (nth 1 g []) = Ret x -> P (nth 0 g []) x)
         pairs ->
  parse_pairs pairs acc = Ret r ->
  map_Forall P r.
Proof.
  revert acc. induction pairs as [|g pairs IH]; intros acc Hacc Hp; cbn [parse_pairs].
  - by intros [= <-].
  - apply Forall_cons in Hp as [Hg Hp].
    destruct (decode_value _) as [x| |] eqn:E; [|done..].
    apply IH; [|done]. apply map_Forall_insert_2; [by apply Hg|done].
Qed.

Lemma foldl_insert_reverse (kxs : list (str * value)) :
  foldl (fun (r : record) kx => <[kx.1 := kx.2]> r) ∅ kxs = list_to_map (reverse kxs).
Proof.
  induction kxs as [|kx kxs IH] using rev_ind; [done|].
  rewrite foldl_snoc, reverse_snoc, IH. by destruct kx.
Qed.

Lemma findall_fields (head : str) (fs : list field) :
  DQ ∉ head -> Forall well_formed fs ->
  findall 2 pair_re (fields_line head fs) = map (fun f => [f_key f; f_value f]) fs.
Proof.
  intros Hh Hfs. revert head Hh. induction Hfs as [|f fs Hf _ IH]; intros head Hh.
  - unfold fields_line. cbn [flat_map map]. by rewrite pair_skip.
  - destruct Hf as (Hne & Hkey & Hv & Ht).
    unfold fields_line. cbn [flat_map map]. rewrite pair_skip by done.
    unfold field_text at 1, quoted.
    replace (((DQ :: f_key f ++ [DQ]) ++ COLON :: f_value f ++ f_tail f)
             ++ flat_map field_text fs)
      with ((DQ :: f_key f ++ DQ :: COLON :: f_value f) ++ fields_line (f_tail f) fs).
    2:{ unfold fields_line. by list_assoc. }
    rewrite findall_hit with (g := [f_key f; f_value f]); [by rewrite IH|done|].
    rewrite re_match_pair. list_assoc. by apply scan_pair_complete.
Qed.

Lemma fields_decoded (fs : list field) :
  Forall well_formed fs -> Forall (fun f => within_int_limit (f_value f)) fs ->
  exists kxs,
    Forall2 (fun f kx => decodes_to f kx /\ decode_value (f_value f) = Ret kx.2) fs kxs.
Proof.
  induction 1 as [|f fs Hf _ IH]; [by exists []|].
  intros [Hw Hws]%Forall_cons. destruct (IH Hws) as [kxs Hk].
  destruct Hf as (_ & _ & Hv & _).
  destruct (decode_value_total _ Hv) as [x Hx].
  exists ((f_key f, x) :: kxs). constructor; [|done].
  split; [|done]. split; [done|]. by rewrite decode_value_limited_within.
Qed.

(** Every match of the pair pattern in a line stands at a place of the
    line. *)
Lemma findall_pairs_at (line : str) :
  Forall (fun g : list str =>
            exists pre key value rest,
              g = [key; value] /\ line = pre ++ DQ :: key ++ DQ :: COLON :: value ++ rest
              /\ key <> [] /\ Forall (fun c => key_char c = true) key /\ pair_value value)
         (findall 2 pair_re line).
Proof.
  apply (findall_from_Forall_at 2 pair_re _ line line 0 []); [done|].
  intros pre t rest g -> Hm. rewrite re_match_pair in Hm.
  apply scan_pair_sound in Hm as (key & val & -> & -> & Hne & Hk & Hv).
  by exists pre, key, val, rest.
Qed.

Lemma parse_response_shape (line : str) (r : record) :
  parse_response line = Ret r ->
  forall k v, r !! k = Some v ->
    k <> [] /\ Forall (fun c => key_char c = true) k
    /\ contains (quoted k ++ [COLON]) line = true
    /\ value_ok v.
Proof.
  unfold parse_response. intros Hr.
  eapply (parse_pairs_invariant
            (fun k v => k <> [] /\ Forall (fun c => key_char c = true) k
                        /\ contains (quoted k ++ [COLON]) line = true /\ value_ok v));
    [apply map_Forall_empty| |exact Hr].
  eapply Forall_impl; [apply findall_pairs_at|].
  intros g (pre & key & val & rest & -> & E & Hne & Hk & Hv) x Hx.
  cbn [nth] in *. split_and!; [done|done| |by eapply decode_value_ok].
  apply contains_spec. exists pre, (val ++ rest). rewrite E. unfold quoted. by list_assoc.
Qed.

End DecoderMore.

Lemma str_of_int_lacks (n : Z) (x : char) :
  is_digit x = false -> x <> MINUS -> x ∉ str_of_int n.
Proof.
  intros Hd Hm Hin. pose proof (str_of_int_chars n) as H.
  rewrite Forall_forall in H. destruct (H _ Hin); congruence.
Qed.

Section DecoderRules.
Context {U : UnicodeData}.

(** X1: a line of several fields, with text free of double quotes before,
    between and after them and no quoted run of more than 4300 digits as
    a value, decodes to the map of its fields; where a key comes twice,
    the later field is the one in the map. *)
Theorem fields_decode (head : str) (fs : list field) :
  DQ ∉ head -> Forall well_formed fs -> Forall (fun f => within_int_limit (f_value f)) fs ->
  exists kxs,
    Forall2 decodes_to fs kxs
    /\ parse_response_limited (fields_line head fs) = Ret (list_to_map (reverse kxs)).
Proof.
  intros Hh Hfs Hws. destruct (fields_decoded fs Hfs Hws) as [kxs Hk].
  exists kxs. split.
  { eapply Forall2_impl; [done|]. by intros f kx [H _]. }
  unfold parse_response_limited. rewrite findall_fields by done.
  rewrite parse_pairs_limited_within.
  - rewrite <- foldl_insert_reverse. apply parse_pairs_fold.
    apply Forall2_fmap_l. eapply Forall2_impl; [done|].
    intros f kx [[Hkey _] Hval]. by split.
  - apply Forall_map. rewrite Forall_forall in Hfs, Hws. apply Forall_forall.
    intros f Hf. cbn [nth]. split; [|by apply Hws].
    by destruct (Hfs f Hf) as (_ & _ & Hv & _).
Qed.


(** X3: on any line the decoder returns a record, or it raises the error
    of [int] on more than 4300 digits and the line holds a quoted run of
    that many digits; so it returns on every line of at most 4300
    characters.  Every field of a record it returns has a key of word
    characters that stands quoted and followed by a colon in the line,
    and a value that is absent, a non-negative integer, a text without
    double quote or a list of such texts. *)
Theorem decoded_record_shape (line : str) :
  ((exists r, parse_response_limited line = Ret r)
   \/ (exists ds,
         forallb is_digit ds = true /\ int_max_str_digits < Z.of_nat (length ds)
         /\ contains (quoted ds) line = true
         /\ parse_response_limited line = Raise (digit_limit_error (length ds))))
  /\ (Z.of_nat (length line) <= int_max_str_digits ->
      exists r, parse_response_limited line = Ret r)
  /\ (forall r, parse_response_limited line = Ret r ->
      forall k v, r !! k = Some v ->
        k <> [] /\ Forall (fun c => key_char c = true) k
        /\ contains (quoted k ++ [COLON]) line = true
        /\ value_ok v).
Proof.
  assert ((exists r, parse_response_limited line = Ret r)
          \/ (exists ds,
                forallb is_digit ds = true /\ int_max_str_digits < Z.of_nat (length ds)
                /\ contains (quoted ds) line = true
                /\ parse_response_limited line = Raise (digit_limit_error (length ds))))
    as Hcases.
  { unfold parse_response_limited.
    destruct (parse_pairs_limited_cases (findall 2 pair_re line) ∅) as [E|H].
    - left. rewrite E. apply parse_response_total.
    - right. destruct H as (g & ds & rest & Hin & Hg & Hds & Hlt & E).
      exists ds. split_and!; [done|done| |done].
      pose proof (findall_pairs_at line) as Hat. rewrite Forall_forall in Hat.
      destruct (Hat g Hin) as (pre & key & val & rest' & -> & El & _).
      cbn [nth] in Hg. subst val.
      apply contains_spec. exists (pre ++ DQ :: key ++ [DQ; COLON]), (rest ++ rest').
      rewrite El. unfold quoted. by list_assoc. }
  split_and!; [done| |].
  - intros Hshort. destruct Hcases as [H|(ds & _ & Hlt & Hin & _)]; [done|]. exfalso.
    apply contains_spec in Hin as (pre & post & ->).
    rewrite !length_app, quoted_length in Hshort. lia.
  - intros r Hr. by apply parse_response_shape, limited_returns.
Qed.

(** X4: a quoted text that is empty or is no run of digits decodes to that
    text, with each backslash followed by n turned into a newline. *)
Theorem text_field_rule (key b : str) :
  key <> [] -> Forall (fun c => key_char c = true) key ->
  DQ ∉ b -> (b = [] \/ forallb is_digit b = false) ->
  parse_response (one_pair_line key (quoted b)) = Ret {[key := VStr (unescape_newlines b)]}.
Proof.
  intros Hne Hkey Hb Hd.
  apply parse_one_pair; [done|done|by apply quoted_value|by apply decode_text].
Qed.

(** X5: what [str] makes of a non-negative integer decodes, between quotes,
    to that integer. *)
Theorem integer_field_roundtrip (key : str) (n : Z) :
  key <> [] -> Forall (fun c => key_char c = true) key -> 0 <= n ->
  parse_response (one_pair_line key (quoted (str_of_int n))) = Ret {[key := VInt n]}.
Proof.
  intros Hne Hkey Hn. destruct (str_of_int_nonneg n Hn) as (Hs & Hds & Hv).
  apply parse_one_pair; [done|done| |].
  - apply quoted_value. by apply digits_no_quote.
  - unfold quoted. rewrite decode_int by done. by rewrite Hv.
Qed.

(** X6: what [str] makes of a negative integer decodes, between quotes, to a
    text and not to an integer. *)
Theorem negative_number_is_text (key : str) (n : Z) :
  key <> [] -> Forall (fun c => key_char c = true) key -> n < 0 ->
  parse_response (one_pair_line key (quoted (str_of_int n)))
  = Ret {[key := VStr (str_of_int n)]}.
Proof.
  intros Hne Hkey Hn.
  rewrite <- (unescape_plain (str_of_int n)) at 2 by (by apply str_of_int_lacks).
  apply parse_one_pair; [done|done| |].
  - apply quoted_value. by apply str_of_int_lacks.
  - apply decode_text; [by apply str_of_int_lacks|].
    right. by destruct (str_of_int_neg n Hn) as (ds & -> & _).
Qed.

End DecoderRules.

(** ** The text on the wire *)

Lemma pyval_nested_ind (P : pyval -> Prop) :
  (forall s, P (PStr s)) ->
  (forall l, Forall P l -> P (PList l)) ->
  forall v, P v.
Proof.
  intros Hs Hl. fix IH 1. intros [s|l]; [apply Hs|].
  apply Hl. induction l as [|x l IHl]; constructor; [apply IH|exact IHl].
Qed.

Lemma hex_no_newline (w : nat) (n : N) : Forall (fun c => c <> NL) (hex w n).
Proof.
  revert n. induction w as [|w IH]; intros n; cbn [hex]; [constructor|].
  apply Forall_app; split; [apply IH|]. repeat constructor.
  unfold hexdigit, NL. destruct (N.ltb_spec (N.land n 15) 10); lia.
Qed.

Section WireText.
Context {U : UnicodeData}.

Lemma repr_char_no_newline (q c : char) :
  q <> NL -> Forall (fun d => d <> NL) (repr_char q c).
Proof.
  intros Hq. unfold repr_char.
  destruct (N.eqb c q || N.eqb c BS) eqn:E1.
  { apply orb_true_iff in E1 as [->%N.eqb_eq| ->%N.eqb_eq]; by repeat constructor. }
  destruct (N.eqb c TAB); [by repeat constructor|].
  destruct (N.eqb_spec c NL) as [->|E3]; [by repeat constructor|].
  repeat match goal with
         | |- context [if ?b then _ else _] => destruct b
         end;
    repeat first [apply hex_no_newline | apply List.Forall_cons; [done|] | apply List.Forall_nil].
Qed.

Lemma repr_str_no_newline (s : str) : Forall (fun d => d <> NL) (repr_str s).
Proof.
  assert (repr_quote s <> NL) as Hq.
  { unfold repr_quote. by destruct (_ && _). }
  unfold repr_str. revert Hq. generalize (repr_quote s). intros q Hq.
  constructor; [done|].
  apply Forall_app; split; [|by apply List.Forall_cons].
  induction s as [|c s IH]; cbn [flat_map]; [constructor|].
  apply Forall_app; split; [by apply repr_char_no_newline|done].
Qed.

Lemma repr_no_newline (v : pyval) : Forall (fun d => d <> NL) (repr v).
Proof.
  induction v as [s|l IH] using pyval_nested_ind; cbn [repr].
  - apply repr_str_no_newline.
  - constructor; [done|]. apply Forall_app; split; [|by repeat constructor].
    apply Forall_join; [by repeat constructor|]. by apply Forall_map in IH.
Qed.

Lemma wire_no_newline (l : list pyval) : NL ∉ wire_text (PList l).
Proof.
  unfold wire_text. rewrite wire_replace. cbn [py_str].
  intros (c & Hc & Hin)%list_elem_of_fmap.
  pose proof (repr_no_newline (PList l)) as H. rewrite Forall_forall in H.
  specialize (H _ Hin). by destruct (N.eqb c SQ).
Qed.

End WireText.

Lemma safe_char_spec (c : char) :
  safe_char c = true ->
  (32 <= c)%N /\ (c < 127)%N /\ c <> SQ /\ c <> DQ /\ c <> BS.
Proof.
  unfold safe_char. rewrite !andb_true_iff, !negb_true_iff.
  intros ((((H1%N.leb_le & H2%N.ltb_lt) & H3%N.eqb_neq) & H4%N.eqb_neq) & H5%N.eqb_neq).
  done.
Qed.

Lemma digit_or_minus_safe (c : char) : is_digit c = true \/ c = MINUS -> safe_char c = true.
Proof.
  intros [H| ->]; [|done]. unfold is_digit in H.
  apply andb_true_iff in H as [H1%N.leb_le H2%N.leb_le].
  unfold safe_char, SQ, DQ, BS.
  rewrite !andb_true_iff, !negb_true_iff, N.leb_le, N.ltb_lt, !N.eqb_neq. lia.
Qed.

Lemma str_of_int_safe (n : Z) : Forall (fun c => safe_char c = true) (str_of_int n).
Proof.
  eapply Forall_impl; [apply str_of_int_chars|]. apply digit_or_minus_safe.
Qed.

Lemma no_apostrophe_quote (s : str) : SQ ∉ s -> repr_quote s = SQ.
Proof.
  intros H. unfold repr_quote.
  destruct (existsb (N.eqb SQ) s) eqn:E; [|done].
  apply existsb_exists in E as (c & Hin & Hc%N.eqb_eq). subst c.
  by apply list_elem_of_In in Hin.
Qed.

Lemma map_no_apostrophe (s : str) :
  SQ ∉ s -> @map char char (fun c : N => if N.eqb c SQ then DQ else c) s = s.
Proof.
  induction s as [|c s IH]; [done|]. intros [Hc Hs]%not_elem_of_cons.
  cbn [map]. rewrite IH by done. by destruct (N.eqb_spec c SQ).
Qed.

Lemma safe_no_apostrophe (s : str) : Forall (fun c => safe_char c = true) s -> SQ ∉ s.
Proof.
  intros H Hin. rewrite Forall_forall in H.
  by apply H, safe_char_spec in Hin as (_ & _ & ? & _).
Qed.

Section WireFormats.
Context {U : UnicodeData}.

Lemma repr_char_safe (c : char) : safe_char c = true -> repr_char SQ c = [c].
Proof.
  intros (H1 & H2 & H3 & H4 & H5)%safe_char_spec. unfold repr_char.
  destruct (N.eqb_spec c SQ); [done|]. destruct (N.eqb_spec c BS); [done|].
  cbn [orb]. unfold TAB, NL, CR in *.
  destruct (N.eqb_spec c 9); [lia|]. destruct (N.eqb_spec c 10); [lia|].
  destruct (N.eqb_spec c 13); [lia|].
  destruct (N.ltb_spec c 32); [lia|]. destruct (N.eqb_spec c 127); [lia|].
  cbn [orb]. by destruct (N.ltb_spec c 127); [|lia].
Qed.

Lemma repr_wire_char (c : char) :
  safe_char c = true \/ c = NL ->
  flat_map (repr_char SQ) (if N.eqb NL c then ESC_NL else [c]) = wire_char c.
Proof.
  intros [H| ->]; [|reflexivity].
  pose proof (safe_char_spec c H) as (H1 & _). unfold wire_char, NL in *.
  destruct (N.eqb_spec 10 c); [lia|]. destruct (N.eqb_spec c 10); [lia|].
  cbn [flat_map]. by rewrite repr_char_safe, app_nil_r.
Qed.

Lemma escape_no_apostrophe (t : str) :
  Forall (fun c => safe_char c = true \/ c = NL) t -> SQ ∉ escape_newlines t.
Proof.
  induction 1 as [|c t Hc _ IH]; [by apply not_elem_of_nil|].
  rewrite escape_cons, elem_of_app. intros [Hin|Hin]; [|done].
  destruct (N.eqb_spec NL c).
  - by apply elem_of_cons in Hin as [|[|[]%elem_of_nil]%elem_of_cons].
  - apply list_elem_of_singleton in Hin as <-.
    destruct Hc as [(_ & _ & ? & _)%safe_char_spec| ?]; done.
Qed.

(** [repr] of a text of safe characters is the text between apostrophes. *)
Lemma repr_str_safe (s : str) :
  Forall (fun c => safe_char c = true) s -> repr_str s = SQ :: s ++ [SQ].
Proof.
  intros H. pose proof (safe_no_apostrophe s H) as Hq.
  unfold repr_str. rewrite no_apostrophe_quote by done. do 2 f_equal.
  induction H as [|c s Hc _ IH]; [done|].
  apply not_elem_of_cons in Hq as [_ Hq].
  cbn [flat_map]. by rewrite repr_char_safe, IH.
Qed.

(** [repr] of an escaped tactic: every newline has become two
    backslashes and the letter n. *)
Lemma repr_escaped (t : str) :
  Forall (fun c => safe_char c = true \/ c = NL) t ->
  repr_str (escape_newlines t) = SQ :: flat_map wire_char t ++ [SQ].
Proof.
  intros H. unfold repr_str.
  rewrite no_apostrophe_quote by (by apply escape_no_apostrophe). do 2 f_equal.
  induction H as [|c t Hc _ IH]; [done|].
  rewrite escape_cons, flat_map_app, IH. cbn [flat_map]. by rewrite repr_wire_char.
Qed.

Lemma wire_chars_no_apostrophe (t : str) :
  Forall (fun c => safe_char c = true \/ c = NL) t -> SQ ∉ flat_map wire_char t.
Proof.
  induction 1 as [|c t Hc _ IH]; [by apply not_elem_of_nil|].
  cbn [flat_map]. rewrite elem_of_app. intros [Hin|Hin]; [|done].
  unfold wire_char in Hin. destruct (N.eqb_spec c NL).
  - by apply elem_of_cons in Hin as [|[|[|[]%elem_of_nil]%elem_of_cons]%elem_of_cons].
  - apply list_elem_of_singleton in Hin as <-.
    destruct Hc as [(_ & _ & ? & _)%safe_char_spec| ?]; done.
Qed.

(** X7: the text that [run_tac] sends for a tactic of printable ASCII
    characters other than quotes and backslash, and of newlines: the
    list of run_tac and of the three arguments between double quotes,
    the tactic with two backslashes and n for each newline. *)
Theorem run_tac_wire_format (sid tid : Z) (tactic : str) :
  Forall (fun c => safe_char c = true \/ c = NL) tactic ->
  wire_text (run_tac_cmd sid tid tactic)
  = qlit "['run_tac', ['" ++ str_of_int sid ++ qlit "', '" ++ str_of_int tid
    ++ qlit "', '" ++ flat_map wire_char tactic ++ qlit "']]".
Proof.
  intros Ht. unfold wire_text, run_tac_cmd. rewrite wire_replace.
  cbn [py_str repr map join].
  rewrite (repr_str_safe (str_of_int sid)), (repr_str_safe (str_of_int tid))
    by apply str_of_int_safe.
  rewrite repr_escaped by done.
  rewrite !map_app. cbn [map]. rewrite !map_app. cbn [map]. rewrite !map_app.
  rewrite !(map_no_apostrophe (str_of_int _)) by apply safe_no_apostrophe, str_of_int_safe.
  rewrite (map_no_apostrophe (flat_map _ _)) by (by apply wire_chars_no_apostrophe).
  list_assoc. reflexivity.
Qed.

(** X8: the texts that [init_search] and [clear_search] send: the name, when
    it is made of safe characters, and the decimal search id stand
    between double quotes. *)
Theorem search_wire_formats (name : str) (sid : Z) :
  Forall (fun c => safe_char c = true) name ->
  wire_text (init_search_cmd name) = qlit "['init_search', ['" ++ name ++ qlit "', '']]"
  /\ wire_text (clear_search_cmd sid) = qlit "['clear_search', ['" ++ str_of_int sid ++ qlit "']]".
Proof.
  intros Hn. split.
  - unfold wire_text, init_search_cmd. rewrite wire_replace.
    cbn [py_str repr map join]. rewrite (repr_str_safe name) by done.
    rewrite !map_app. cbn [map]. rewrite !map_app. cbn [map]. rewrite !map_app.
    rewrite (map_no_apostrophe name) by (by apply safe_no_apostrophe).
    list_assoc. reflexivity.
  - unfold wire_text, clear_search_cmd. rewrite wire_replace.
    cbn [py_str repr map join]. rewrite (repr_str_safe (str_of_int sid)) by apply str_of_int_safe.
    rewrite !map_app. cbn [map]. rewrite !map_app. cbn [map]. rewrite ?map_app.
    rewrite (map_no_apostrophe (str_of_int _)) by apply safe_no_apostrophe, str_of_int_safe.
    list_assoc. reflexivity.
Qed.

(** X9: whatever the arguments, the text of a command holds no newline: with
    the newline that ends it, it is one line for the REPL. *)
Theorem command_is_one_line (c : call) (st : state) :
  is_command c = true -> closed st.1 = false -> screen_found st.2 = true ->
  spawned (run_call c st).2.2
  = spawned st.2 ++ [(None, QUERY st.1 ++ [wire_text (cmd_of c) ++ [NL]])]
  /\ (NL ∉ wire_text (cmd_of c)).
Proof.
  intros Hc Ho Hs. rewrite command_open by done. split; [done|].
  destruct c; try done; apply wire_no_newline.
Qed.

End WireFormats.

(** ** Building the connection *)

Lemma split_no_sep (sep : char) (a : str) : sep ∉ a -> split sep a = [a].
Proof.
  induction a as [|c a IH]; [done|]. intros [Hc Ha]%not_elem_of_cons.
  cbn [split]. rewrite IH by done. by destruct (N.eqb_spec c sep); [congruence|].
Qed.

Lemma split_app_sep (sep : char) (a b : str) :
  sep ∉ a -> split sep (a ++ sep :: b) = a :: split sep b.
Proof.
  induction a as [|c a IH]; intros Ha.
  - cbn [app split]. by rewrite N.eqb_refl.
  - apply not_elem_of_cons in Ha as [Hc Ha]. cbn [app split]. rewrite IH by done.
    by destruct (N.eqb_spec c sep); [congruence|].
Qed.

Lemma session_name_no_space (n : Z) : SP ∉ session_name n.
Proof.
  unfold session_name. rewrite elem_of_app. intros [H|H].
  - revert H. compute_done.
  - by apply str_of_int_lacks in H.
Qed.

Lemma query_split (n : Z) :
  split SP (lit "screen -S " ++ session_name n ++ lit " -X stuff") = query_argv n.
Proof.
  change (lit "screen -S " ++ session_name n ++ lit " -X stuff")
    with (lit "screen" ++ SP :: lit "-S" ++ SP :: session_name n ++ SP :: lit "-X"
          ++ SP :: lit "stuff").
  rewrite !split_app_sep, split_no_sep; try apply session_name_no_space; try compute_done.
  done.
Qed.

Lemma exit_split (n : Z) :
  split SP (lit "screen -S " ++ session_name n ++ lit " -X quit") = exit_argv n.
Proof.
  change (lit "screen -S " ++ session_name n ++ lit " -X quit")
    with (lit "screen" ++ SP :: lit "-S" ++ SP :: session_name n ++ SP :: lit "-X"
          ++ SP :: lit "quit").
  rewrite !split_app_sep, split_no_sep; try apply session_name_no_space; try compute_done.
  done.
Qed.

Lemma start_split (tmp : str) (n : Z) :
  SP ∉ tmp ->
  split SP (lit "screen -Logfile " ++ tmp ++ lit " -dmSL " ++ session_name n
            ++ lit " lean --run src/repl.lean")
  = start_argv tmp n.
Proof.
  intros Ht.
  change (lit "screen -Logfile " ++ tmp ++ lit " -dmSL " ++ session_name n
          ++ lit " lean --run src/repl.lean")
    with (lit "screen" ++ SP :: lit "-Logfile" ++ SP :: tmp ++ SP :: lit "-dmSL"
          ++ SP :: session_name n ++ SP :: lit "lean" ++ SP :: lit "--run"
          ++ SP :: lit "src/repl.lean").
  rewrite !split_app_sep, split_no_sep;
    try apply session_name_no_space; try done; try compute_done.
Qed.

Lemma init_unfold (path tmp : str) (w : World) :
  init path tmp w =
  let n := n_conns w + 1 in
  let w1 := mkWorld n (screen_found w) ({[tmp]} ∪ files w) (spawned w) (feed w) in
  let start :=
    split SP (lit "screen -Logfile " ++ tmp ++ lit " -dmSL " ++ session_name n
              ++ lit " lean --run src/repl.lean") in
  if screen_found w then
    (Ret (mkSelf false tmp true start
            (split SP (lit "screen -S " ++ session_name n ++ lit " -X stuff"))
            (split SP (lit "screen -S " ++ session_name n ++ lit " -X quit")) 0),
     with_spawn (Some path) start w1)
  else (Raise (OSError (lit "screen (terminal command) is not found")), w1).
Proof.
  unfold init, subprocess_run, session_name. cbv zeta. cbn [screen_found].
  by destruct (screen_found w).
Qed.

Lemma init_names (path tmp : str) (w w' : World) (s : Self) :
  init path tmp w = (Ret s, w') ->
  QUERY s = query_argv (n_conns w + 1) /\ EXIT s = exit_argv (n_conns w + 1)
  /\ n_conns w' = n_conns w + 1.
Proof.
  rewrite init_unfold. cbv zeta. destruct (screen_found w); [|done].
  intros H. rewrite query_split, exit_split in H. by injection H as <- <-.
Qed.

(** X10: whenever [__init__] returns, and the name of the log holds no
    space, it has started the REPL in a detached session with eight
    arguments, in the directory it was given; the connection is open,
    nothing is outstanding, the log exists and the counter of
    connections went up by one. *)
Theorem init_builds (path tmp : str) (w w' : World) (s : Self) :
  init path tmp w = (Ret s, w') -> SP ∉ tmp ->
  s = mkSelf false tmp true (start_argv tmp (n_conns w + 1))
             (query_argv (n_conns w + 1)) (exit_argv (n_conns w + 1)) 0
  /\ w' = mkWorld (n_conns w + 1) true ({[tmp]} ∪ files w)
                  (spawned w ++ [(Some path, start_argv tmp (n_conns w + 1))]) (feed w).
Proof.
  intros H Ht. rewrite init_unfold in H. cbv zeta in H.
  destruct (screen_found w) eqn:Hs; [|done].
  rewrite query_split, exit_split, start_split in H by done.
  injection H as <- <-. done.
Qed.

(** X11: a connection built later in the same process never has the session
    of an earlier one: its query and quit commands differ. *)
Theorem later_session_differs (p1 t1 p2 t2 : str) (w1 w1' w2 w2' : World) (s1 s2 : Self) :
  init p1 t1 w1 = (Ret s1, w1') -> n_conns w1' <= n_conns w2 ->
  init p2 t2 w2 = (Ret s2, w2') ->
  QUERY s1 <> QUERY s2 /\ EXIT s1 <> EXIT s2 /\ n_conns w1' < n_conns w2'.
Proof.
  intros (Hq1 & He1 & Hn1)%init_names Hle (Hq2 & He2 & Hn2)%init_names.
  rewrite Hq1, Hq2, He1, He2. unfold query_argv, exit_argv.
  split_and!; [| |lia]; intros [= H%str_of_int_inj]; lia.
Qed.

(** ** What a connection touches *)

Section Frame.
Context {U : UnicodeData}.

Lemma kept_refl (st : state) : keeps_to_itself st st.
Proof. unfold keeps_to_itself. split_and!; try done; try (intros; reflexivity). exists []. by rewrite app_nil_r. Qed.

Lemma kept_trans (a b c : state) :
  keeps_to_itself a b -> keeps_to_itself b c -> keeps_to_itself a c.
Proof.
  intros (H1 & H2 & H3 & H4 & H5 & H6 & H7 & new1 & H8 & H9)
         (G1 & G2 & G3 & G4 & G5 & G6 & G7 & new2 & G8 & G9).
  unfold keeps_to_itself. split_and!; try congruence.
  - intros f Hf. rewrite G7 by congruence. by apply H7.
  - exists (new1 ++ new2). rewrite G8, H8, app_assoc. split; [done|].
    apply Forall_app. split; [done|]. eapply Forall_impl; [done|].
    intros e. unfold own_process, sent. by rewrite H5, H6.
Qed.

Lemma command_kept (c : call) (st : state) :
  is_command c = true -> closed st.1 = false -> keeps_to_itself st (run_call c st).2.
Proof.
  intros Hc Ho. destruct (screen_found st.2) eqn:Hs.
  - rewrite command_open by done. unfold keeps_to_itself, issued, with_spawn. simpl.
    split_and!; try done; try (intros; reflexivity). exists [sent st.1 c]. split; [done|].
    apply List.Forall_cons; [|apply List.Forall_nil]. right. by exists c.
  - rewrite command_is_issue by done.
    destruct st as [[cl fn fo S Q E q] [n sf fs sp fd]]. simpl in Ho, Hs. subst.
    unfold keeps_to_itself. simpl. split_and!; try done; try (intros; reflexivity). exists []. by rewrite app_nil_r.
Qed.

Lemma collect_kept (st : state) :
  closed st.1 = false -> keeps_to_itself st (run_call Collect st).2.
Proof.
  intros Ho. destruct st as [s w]. simpl in Ho.
  cbn [run_call]. unfold bind at 1. rewrite collect_open by done.
  destruct (collect_loop _ _ _ _) as [[[rs|e|] q] l];
    unfold keeps_to_itself; simpl; split_and!; try done; try (intros; reflexivity);
      exists []; by rewrite app_nil_r.
Qed.

Lemma close_kept (st : state) :
  closed st.1 = false -> keeps_to_itself st (run_call Close st).2.
Proof.
  intros Ho. destruct st as [[cl fn fo S Q E q] [n sf fs sp fd]]. simpl in Ho. subst.
  cbn [run_call]. unfold bind, close, bind, check_open, set_closed, set_file_open,
    in_world, subprocess_run, os_remove, with_spawn, ret. simpl.
  destruct sf; simpl.
  - destruct (decide _); simpl; unfold keeps_to_itself; simpl; split_and!; try done; try (intros; reflexivity).
    + intros f Hf. rewrite elem_of_difference, elem_of_singleton. tauto.
    + exists [(None, E)]. split; [done|].
      apply List.Forall_cons; [by left|apply List.Forall_nil].
    + exists [(None, E)]. split; [done|].
      apply List.Forall_cons; [by left|apply List.Forall_nil].
  - unfold keeps_to_itself; simpl; split_and!; try done; try (intros; reflexivity). exists []. by rewrite app_nil_r.
Qed.

Lemma run_call_kept (c : call) (st : state) : keeps_to_itself st (run_call c st).2.
Proof.
  destruct (closed st.1) eqn:Ho; [rewrite run_call_closed by done; apply kept_refl|].
  destruct (is_command c) eqn:Hc; [by apply command_kept|].
  destruct c; try done; [by apply collect_kept|by apply close_kept].
Qed.

(** X12: whatever a caller does with a connection, the connection changes no
    file but its own log, leaves the counter of connections and its own
    command lines alone, and starts no process but its quit command and
    its commands for the REPL. *)
Theorem connection_keeps_to_itself {A} (b : block A) (st : state) :
  keeps_to_itself st (run_block b st).2.
Proof.
  revert st. induction b as [a|e|c k IH]; intros st; [apply kept_refl..|].
  cbn [run_block]. pose proof (run_call_kept c st) as H.
  destruct (run_call c st) as [[r|e|] st']; simpl in H.
  - eapply kept_trans; [exact H|apply IH].
  - eapply kept_trans; [exact H|apply IH].
  - exact H.
Qed.

(** ** The outcome of the scoped helper *)

(** X13: when the block leaves the connection open, [invoke_lean] ends as
    the block ends: with its result or with its error.  When the block
    has closed the connection itself, [invoke_lean] raises the error of
    the closed connection, whatever the block returned or raised. *)
Theorem invoke_lean_outcome {A} (path tmp : str) (body : block A) (w : World) :
  screen_found w = true ->
  exists s0 w0,
    init path tmp w = (Ret s0, w0)
    /\ (closed (run_block body (s0, w0)).2.1 = false ->
        (invoke_lean path tmp body w).1.1 = (run_block body (s0, w0)).1)
    /\ (closed (run_block body (s0, w0)).2.1 = true ->
        (run_block body (s0, w0)).1 <> Hang ->
        (invoke_lean path tmp body w).1.1 = Raise connection_is_closed).
Proof.
  intros Hs. destruct (init_found path tmp w Hs) as (s0 & w0 & Hi).
  exists s0, w0. split; [done|].
  pose proof (run_block_tidy tmp (EXIT s0) body (s0, w0) (init_tidy _ _ _ _ _ Hi)) as Ht.
  unfold invoke_lean, finally_close. rewrite Hi.
  destruct (run_block body (s0, w0)) as [o [s1 w1]].
  destruct Ht as (Hf & _ & Hsf & Hcases). simpl in *. split.
  - intros Ho. destruct Hcases as [[_ Hin]|[Hc _]]; [|congruence].
    rewrite close_open by (done || by rewrite Hf).
    by destruct o.
  - intros Hc Hn. unfold close. rewrite closed_raises by done. by destruct o.
Qed.

(** X14: when [screen] is not there, [invoke_lean] raises the error of the
    missing program and never runs the block: there is no connection and
    no process was started; the log that was made for it stays behind
    and the counter of connections has gone up. *)
Theorem invoke_lean_without_screen {A} (path tmp : str) (body : block A) (w : World) :
  screen_found w = false ->
  invoke_lean path tmp body w
  = (Raise (OSError (lit "screen (terminal command) is not found")), None,
     mkWorld (n_conns w + 1) false ({[tmp]} ∪ files w) (spawned w) (feed w)).
Proof.
  intros Hs. unfold invoke_lean. rewrite init_unfold. cbv zeta. by rewrite Hs.
Qed.

End Frame.

(** ** More on commands and their collection *)

Section Batches.
Context {U : UnicodeData}.

Lemma after_commands_cons (c : call) (cmds : list call) (st : state) :
  after_commands cmds (issued (cmd_of c) st) = after_commands (c :: cmds) st.
Proof.
  unfold after_commands, issued, with_spawn, sent. cbn [fst snd closed filename file_open
    START QUERY EXIT queries n_conns screen_found files spawned feed length map].
  f_equal; f_equal; [lia|by rewrite <- app_assoc].
Qed.

Lemma straight_run (cmds : list call) (st : state) :
  Forall (fun c => is_command c = true) cmds ->
  closed st.1 = false -> screen_found st.2 = true ->
  run_block (straight cmds) st = (Ret tt, after_commands cmds st).
Proof.
  intros Hcmds. revert st. induction Hcmds as [|c cmds Hc _ IH]; intros st Ho Hs.
  - destruct st as [[] []]. unfold after_commands. simpl.
    by rewrite Z.add_0_r, app_nil_r.
  - cbn [straight run_block]. rewrite command_open by done.
    rewrite IH by done. by rewrite after_commands_cons.
Qed.

Lemma collect_loop_ret_nonpos (o : bool) (lines : list str) (q q' : Z)
    (result rs : list record) (rest : list str) :
  collect_loop o lines q result = (Ret rs, q', rest) -> q' <= 0.
Proof.
  revert q result. induction lines as [|line lines IH]; intros q result;
    cbn [collect_loop]; destruct (Z.ltb_spec 0 q) as [Hq|Hq]; try (intros [= _ <- _]; lia).
  - by destruct o.
  - destruct o; [|done].
    destruct (collect_line line q result) as [[q1 r1]| |]; [apply IH|done..].
Qed.



(** What the loop has read when it returns: a stretch of the log that
    holds as many candidate lines as there were commands outstanding and,
    if there were any, ends with a candidate line. *)
Lemma collect_loop_returned (o : bool) (lines : list str) (q q' : Z)
    (result rs : list record) (rest : list str) :
  0 <= q -> collect_loop o lines q result = (Ret rs, q', rest) ->
  q' = 0
  /\ exists pre new,
       lines = pre ++ rest /\ rs = result ++ new
       /\ length (candidates pre) = Z.to_nat q /\ length new = Z.to_nat q
       /\ (0 < q -> exists pre0 line, pre = pre0 ++ [line] /\ is_candidate line = true).
Proof.
  revert q result. induction lines as [|line lines IH]; intros q result Hq.
  - cbn [collect_loop]. destruct (Z.ltb_spec 0 q) as [Hpos|Hz]; [by destruct o|].
    intros [= <- <- <-]. assert (q = 0) as -> by lia. split; [done|].
    exists [], []. split_and!; try done; try (by rewrite app_nil_r); intros; lia.
  - destruct (Z.eq_dec q 0) as [->|Hne].
    { rewrite collect_loop_done by lia. intros [= <- <- <-]. split; [done|].
      exists [], []. split_and!; try done; try (by rewrite app_nil_r); intros; lia. }
    cbn [collect_loop]. rewrite (proj2 (Z.ltb_lt 0 q)) by lia. destruct o; [|done].
    destruct (is_candidate line) eqn:Hc.
    + destruct (collect_line_candidate line q result Hc) as (r & Hr & ->).
      destruct (Z.eq_dec q 1) as [->|Hq1].
      * rewrite collect_loop_done by lia. intros [= <- <- <-]. split; [done|].
        exists [line], [r]. unfold candidates. cbn [List.filter]. rewrite Hc.
        split_and!; try done. intros _. by exists [], line.
      * intros H. apply IH in H as (-> & pre & new & -> & -> & Hn1 & Hn2 & Hlast); [|lia].
        split; [done|]. exists (line :: pre), (r :: new).
        unfold candidates in *. cbn [List.filter]. rewrite Hc. cbn [length].
        rewrite <- app_assoc. split_and!; [done|done|lia|lia|].
        intros _. destruct Hlast as (pre0 & l & -> & Hl); [lia|].
        by exists (line :: pre0), l.
    + rewrite collect_line_noise by done.
      intros H. apply IH in H as (-> & pre & new & -> & -> & Hn1 & Hn2 & Hlast); [|lia].
      split; [done|]. exists (line :: pre), new.
      unfold candidates in *. cbn [List.filter]. rewrite Hc.
      split_and!; [done|done|lia|lia|].
      intros Hpos. destruct (Hlast Hpos) as (pre0 & l & -> & Hl).
      by exists (line :: pre0), l.
Qed.

Lemma candidates_app (a b : list str) : candidates (a ++ b) = candidates a ++ candidates b.
Proof. apply List.filter_app. Qed.

End Batches.

Section Collection.
Context {U : UnicodeData}.

(** X15: commands go out in the order of the calls: after a sequence of
    command-issuing calls on an open connection, the processes started
    are one [screen] call per command, in call order, after those that
    were there; the counter has gone up by their number and the log and
    the files are as before. *)
Theorem commands_sent_in_order (cmds : list call) (st : state) :
  Forall (fun c => is_command c = true) cmds ->
  closed st.1 = false -> screen_found st.2 = true ->
  exists st',
    run_block (straight cmds) st = (Ret tt, st')
    /\ spawned st'.2 = spawned st.2 ++ map (sent st.1) cmds
    /\ queries st'.1 = queries st.1 + Z.of_nat (length cmds)
    /\ feed st'.2 = feed st.2 /\ files st'.2 = files st.2.
Proof.
  intros Hcmds Ho Hs. exists (after_commands cmds st).
  by rewrite straight_run.
Qed.

(** What one turn of the loop does to the counter. *)
Lemma collect_line_counter (line : str) (q q' : Z) (result result' : list record) :
  collect_line line q result = Ret (q', result') ->
  q' = if is_candidate line then q - 1 else q.
Proof.
  destruct line as [|c line]; cbn [collect_line is_candidate]; [by intros [= <- _]|].
  destruct (N.eqb c LBRACE); [|by intros [= <- _]].
  destruct (parse_response _); [|done..]. by intros [= <- _].
Qed.

(** The loop stops within a stretch of the log that holds enough
    candidate lines; what follows the stretch is left as it is. *)
Lemma collect_loop_prefix (o : bool) (pre rest rest' : list str) (q : Z)
    (result : list record) :
  (Z.to_nat q <= length (candidates pre))%nat ->
  exists out q' left,
    collect_loop o (pre ++ rest) q result = (out, q', left ++ rest)
    /\ collect_loop o (pre ++ rest') q result = (out, q', left ++ rest').
Proof.
  revert q result. induction pre as [|line pre IH]; intros q result Hen.
  - simpl in Hen. exists (Ret result), q, []. by rewrite !collect_loop_done by lia.
  - destruct (Z.ltb_spec 0 q) as [Hq|Hq].
    2:{ exists (Ret result), q, (line :: pre). by rewrite !collect_loop_done by lia. }
    cbn [app collect_loop]. rewrite (proj2 (Z.ltb_lt 0 q)) by done.
    destruct o.
    2:{ by eexists _, q, (line :: pre). }
    destruct (collect_line line q result) as [[q1 r1]| |] eqn:E.
    + apply collect_line_counter in E. apply IH.
      unfold candidates in Hen. cbn [List.filter] in Hen.
      destruct (is_candidate line); cbn [length] in Hen; subst q1; unfold candidates; lia.
    + by eexists _, q, pre.
    + by eexists _, q, pre.
Qed.

(** X16: [collect()] returns only when the log yields at least as many
    candidate lines as commands are outstanding; and once a stretch of
    the log holds that many, what follows the stretch has no part in
    what [collect()] does: its outcome, records included, and the
    connection it leaves are the same whatever follows. *)
Theorem collect_needs_candidates (s : Self) (w : World) :
  (forall rs st', collect (s, w) = (Ret rs, st') ->
     (Z.to_nat (queries s) <= length (candidates (feed w)))%nat)
  /\ (forall pre rest rest',
        (Z.to_nat (queries s) <= length (candidates pre))%nat ->
        (collect (s, with_feed (pre ++ rest) w)).1
        = (collect (s, with_feed (pre ++ rest') w)).1
        /\ (collect (s, with_feed (pre ++ rest) w)).2.1
           = (collect (s, with_feed (pre ++ rest') w)).2.1).
Proof.
  destruct (closed s) eqn:Ho.
  { split; intros *; unfold collect; by rewrite !closed_raises. }
  split.
  - intros rs st'. rewrite collect_open by done.
    destruct (collect_loop _ _ _ _) as [[o q'] left] eqn:E. intros [= -> _].
    destruct (Z.le_gt_cases 0 (queries s)) as [Hq|Hq]; [|lia].
    apply collect_loop_returned in E as (_ & pre & new & -> & _ & <- & _); [|done].
    rewrite candidates_app, length_app. lia.
  - intros pre rest rest' Hen. rewrite !collect_open by done.
    cbn [feed with_feed].
    destruct (collect_loop_prefix (file_open s) pre rest rest' (queries s) [] Hen)
      as (out & q' & left & -> & ->).
    done.
Qed.

(** X17: when [collect()] returns, nothing is outstanding, there is one
    record for each command that was, and it has read the log up to the
    candidate line that answered the last of them and no further; it has
    started no process and touched no file. *)
Theorem collect_reads_no_further (s s' : Self) (w w' : World) (rs : list record) :
  0 <= queries s -> collect (s, w) = (Ret rs, (s', w')) ->
  queries s' = 0
  /\ length rs = Z.to_nat (queries s)
  /\ spawned w' = spawned w /\ files w' = files w
  /\ exists pre,
       feed w = pre ++ feed w'
       /\ length (candidates pre) = Z.to_nat (queries s)
       /\ (0 < queries s -> exists pre0 line, pre = pre0 ++ [line] /\ is_candidate line = true).
Proof.
  intros Hq. destruct (closed s) eqn:Ho.
  { unfold collect. by rewrite closed_raises. }
  rewrite collect_open by done.
  destruct (collect_loop _ _ _ _) as [[o q'] rest] eqn:E. intros [= -> <- <-].
  apply collect_loop_returned in E as (-> & pre & new & Hpre & -> & Hn1 & Hn2 & Hlast);
    [|done].
  cbn [queries with_feed spawned files feed app]. split_and!; try done.
  by exists pre.
Qed.

(** X18: a second [collect()] right after one that returned gives the empty
    list and changes nothing. *)
Theorem collect_again_is_empty (st st' : state) (rs : list record) :
  collect st = (Ret rs, st') -> collect st' = (Ret [], st').
Proof.
  destruct st as [s w]. destruct (closed s) eqn:Ho.
  { unfold collect. by rewrite closed_raises. }
  rewrite collect_open by done.
  destruct (collect_loop _ _ _ _) as [[o q'] rest] eqn:E. intros [= -> <-].
  apply collect_loop_ret_nonpos in E.
  rewrite collect_open by done. cbn [file_open feed with_feed queries].
  by rewrite collect_loop_done.
Qed.


End Collection.

(** * The further properties at sample inputs *)


Lemma sample_reply_well_formed : Forall (well_formed (U := latin1)) sample_reply.
Proof.
  repeat apply List.Forall_cons; try apply List.Forall_nil.
  - split_and!; [discriminate|by apply forallb_Forall_true|by left|compute_done].
  - split_and!; [discriminate|by apply forallb_Forall_true| |compute_done].
    apply quoted_value. compute_done.
  - split_and!; [discriminate|by apply forallb_Forall_true| |compute_done].
    apply quoted_value. compute_done.
Qed.

Lemma sample_reply_within_limit :
  Forall (fun f => within_int_limit (f_value f)) sample_reply.
Proof.
  repeat apply List.Forall_cons; try apply List.Forall_nil;
    apply short_within_limit; by vm_compute.
Qed.

Lemma fields_decode_witness :
  (DQ ∉ [LBRACE])
  /\ Forall (well_formed (U := latin1)) sample_reply
  /\ Forall (fun f => within_int_limit (f_value f)) sample_reply
  /\ exists kxs,
       Forall2 (decodes_to (U := latin1)) sample_reply kxs
       /\ parse_response_limited (U := latin1) (fields_line [LBRACE] sample_reply)
          = Ret (list_to_map (reverse kxs)).
Proof.
  assert (DQ ∉ [LBRACE]) as H1 by compute_done.
  split_and!; [exact H1|exact sample_reply_well_formed|exact sample_reply_within_limit|].
  exact (fields_decode (U := latin1) [LBRACE] sample_reply H1 sample_reply_well_formed
           sample_reply_within_limit).
Defined.

Lemma decoded_record_shape_witness :
  Z.of_nat (length (fields_line [LBRACE] sample_reply)) <= int_max_str_digits
  /\ exists r, parse_response_limited (U := latin1) (fields_line [LBRACE] sample_reply) = Ret r.
Proof.
  assert (Z.of_nat (length (fields_line [LBRACE] sample_reply)) <= int_max_str_digits) as H
    by (by vm_compute).
  split; [exact H|].
  exact (proj1 (proj2 (decoded_record_shape (U := latin1) (fields_line [LBRACE] sample_reply)))
           H).
Defined.


Lemma text_field_rule_witness :
  lit "error" <> []
  /\ Forall (fun c => key_char (U := latin1) c = true) (lit "error")
  /\ (DQ ∉ lit "unknown id")
  /\ forallb is_digit (lit "unknown id") = false
  /\ parse_response (U := latin1) (one_pair_line (lit "error") (quoted (lit "unknown id")))
     = Ret {[lit "error" := VStr (unescape_newlines (lit "unknown id"))]}.
Proof.
  assert (lit "error" <> []) as H1 by discriminate.
  assert (Forall (fun c => key_char (U := latin1) c = true) (lit "error")) as H2
    by (by apply forallb_Forall_true).
  assert (DQ ∉ lit "unknown id") as H3 by compute_done.
  assert (forallb is_digit (lit "unknown id") = false) as H4 by reflexivity.
  split_and!; [exact H1|exact H2|exact H3|exact H4|].
  exact (text_field_rule (U := latin1) _ _ H1 H2 H3 (or_intror H4)).
Defined.

Lemma integer_field_roundtrip_witness :
  lit "search_id" <> []
  /\ Forall (fun c => key_char (U := latin1) c = true) (lit "search_id")
  /\ 0 <= 42
  /\ parse_response (U := latin1) (one_pair_line (lit "search_id") (quoted (str_of_int 42)))
     = Ret {[lit "search_id" := VInt 42]}.
Proof.
  assert (lit "search_id" <> []) as H1 by discriminate.
  assert (Forall (fun c => key_char (U := latin1) c = true) (lit "search_id")) as H2
    by (by apply forallb_Forall_true).
  assert (0 <= 42) as H3 by lia.
  split_and!; [exact H1|exact H2|exact H3|].
  exact (integer_field_roundtrip (U := latin1) _ 42 H1 H2 H3).
Defined.

Lemma negative_number_is_text_witness :
  lit "search_id" <> []
  /\ Forall (fun c => key_char (U := latin1) c = true) (lit "search_id")
  /\ -1 < 0
  /\ parse_response (U := latin1) (one_pair_line (lit "search_id") (quoted (str_of_int (-1))))
     = Ret {[lit "search_id" := VStr (str_of_int (-1))]}.
Proof.
  assert (lit "search_id" <> []) as H1 by discriminate.
  assert (Forall (fun c => key_char (U := latin1) c = true) (lit "search_id")) as H2
    by (by apply forallb_Forall_true).
  assert (-1 < 0) as H3 by lia.
  split_and!; [exact H1|exact H2|exact H3|].
  exact (negative_number_is_text (U := latin1) _ (-1) H1 H2 H3).
Defined.

Lemma sample_tactic_safe : Forall (fun c => safe_char c = true \/ c = NL) sample_tactic.
Proof.
  repeat (apply List.Forall_cons; [first [left; reflexivity|right; reflexivity]|]).
  apply List.Forall_nil.
Qed.

Lemma run_tac_wire_format_witness :
  Forall (fun c => safe_char c = true \/ c = NL) sample_tactic
  /\ wire_text (U := latin1) (run_tac_cmd 3 0 sample_tactic)
     = qlit "['run_tac', ['3', '0', 'intros," ++ [BS; BS; LETTER_n] ++ qlit "simp']]".
Proof.
  split; [exact sample_tactic_safe|].
  rewrite (run_tac_wire_format (U := latin1) 3 0 sample_tactic sample_tactic_safe).
  reflexivity.
Defined.

Lemma search_wire_formats_witness :
  Forall (fun c => safe_char c = true) (lit "nat.add_comm")
  /\ wire_text (U := latin1) (init_search_cmd (lit "nat.add_comm"))
     = qlit "['init_search', ['nat.add_comm', '']]"
  /\ wire_text (U := latin1) (clear_search_cmd 3) = qlit "['clear_search', ['3']]".
Proof.
  assert (Forall (fun c => safe_char c = true) (lit "nat.add_comm")) as H
    by (by apply forallb_Forall_true).
  split; [exact H|].
  exact (search_wire_formats (U := latin1) (lit "nat.add_comm") 3 H).
Defined.

Lemma command_is_one_line_witness :
  is_command (RunTac 0 0 sample_tactic) = true
  /\ closed (sample_state []).1 = false
  /\ screen_found (sample_state []).2 = true
  /\ (NL ∉ wire_text (U := latin1) (cmd_of (RunTac 0 0 sample_tactic))).
Proof.
  split_and!; [reflexivity..|].
  apply (command_is_one_line (U := latin1) (RunTac 0 0 sample_tactic) (sample_state []));
    reflexivity.
Defined.

Lemma init_builds_witness :
  init (lit "/opt/lean-gym") (lit "/tmp/tmpk3x") (sample_world [])
    = (Ret (sample_state []).1, (sample_state []).2)
  /\ (SP ∉ lit "/tmp/tmpk3x")
  /\ START (sample_state []).1 = start_argv (lit "/tmp/tmpk3x") 1
  /\ spawned (sample_state []).2
     = [(Some (lit "/opt/lean-gym"), start_argv (lit "/tmp/tmpk3x") 1)].
Proof.
  assert (init (lit "/opt/lean-gym") (lit "/tmp/tmpk3x") (sample_world [])
          = (Ret (sample_state []).1, (sample_state []).2)) as H1 by reflexivity.
  assert (SP ∉ lit "/tmp/tmpk3x") as H2 by compute_done.
  split_and!; [exact H1|exact H2|..].
  - destruct (init_builds _ _ _ _ _ H1 H2) as [-> _]. reflexivity.
  - destruct (init_builds _ _ _ _ _ H1 H2) as [_ ->]. reflexivity.
Defined.

Lemma later_session_differs_witness :
  init (lit "/opt/lean-gym") (lit "/tmp/tmpk3x") (sample_world [])
    = (Ret (sample_state []).1, (sample_state []).2)
  /\ n_conns (sample_state []).2 <= n_conns (sample_state []).2
  /\ init (lit "/opt/lean-gym") (lit "/tmp/tmpq7d") (sample_state []).2
     = (Ret sample_second.1, sample_second.2)
  /\ QUERY (sample_state []).1 <> QUERY sample_second.1
  /\ EXIT (sample_state []).1 <> EXIT sample_second.1.
Proof.
  assert (init (lit "/opt/lean-gym") (lit "/tmp/tmpk3x") (sample_world [])
          = (Ret (sample_state []).1, (sample_state []).2)) as H1 by reflexivity.
  assert (n_conns (sample_state []).2 <= n_conns (sample_state []).2) as H2 by lia.
  assert (init (lit "/opt/lean-gym") (lit "/tmp/tmpq7d") (sample_state []).2
          = (Ret sample_second.1, sample_second.2)) as H3 by reflexivity.
  split_and!; [exact H1|exact H2|exact H3|..];
    apply (later_session_differs _ _ _ _ _ _ _ _ _ _ H1 H2 H3).
Defined.

Lemma invoke_lean_outcome_witness :
  screen_found (sample_world sample_lines) = true
  /\ exists s0 w0,
       init (lit "/opt/lean-gym") (lit "/tmp/tmpk3x") (sample_world sample_lines)
         = (Ret s0, w0)
       /\ (closed (run_block (U := latin1) sample_block (s0, w0)).2.1 = true ->
           (run_block (U := latin1) sample_block (s0, w0)).1 <> Hang ->
           (invoke_lean (U := latin1) (lit "/opt/lean-gym") (lit "/tmp/tmpk3x")
                        sample_block (sample_world sample_lines)).1.1
           = Raise connection_is_closed).
Proof.
  split; [reflexivity|].
  destruct (invoke_lean_outcome (U := latin1) (lit "/opt/lean-gym") (lit "/tmp/tmpk3x")
              sample_block (sample_world sample_lines) eq_refl)
    as (s0 & w0 & Hi & _ & Hc).
  by exists s0, w0.
Defined.

Lemma invoke_lean_without_screen_witness :
  screen_found bare_world = false
  /\ (invoke_lean (U := latin1) (lit "/opt/lean-gym") (lit "/tmp/tmpk3x")
                  sample_block bare_world).1
     = (Raise (OSError (lit "screen (terminal command) is not found")), None).
Proof.
  split; [reflexivity|].
  by rewrite (invoke_lean_without_screen (U := latin1) (lit "/opt/lean-gym")
                (lit "/tmp/tmpk3x") sample_block bare_world eq_refl).
Defined.

Lemma sample_cmds_commands : Forall (fun c => is_command c = true) sample_cmds.
Proof. by repeat constructor. Qed.

Lemma commands_sent_in_order_witness :
  Forall (fun c => is_command c = true) sample_cmds
  /\ closed (sample_state sample_lines).1 = false
  /\ screen_found (sample_state sample_lines).2 = true
  /\ exists st',
       run_block (U := latin1) (straight sample_cmds) (sample_state sample_lines)
         = (Ret tt, st')
       /\ spawned st'.2
          = spawned (sample_state sample_lines).2
            ++ map (sent (U := latin1) (sample_state sample_lines).1) sample_cmds.
Proof.
  split_and!; [exact sample_cmds_commands|reflexivity|reflexivity|].
  destruct (commands_sent_in_order (U := latin1) sample_cmds (sample_state sample_lines)
              sample_cmds_commands eq_refl eq_refl) as (st' & E & Hsp & _).
  by exists st'.
Defined.

Lemma collect_needs_candidates_witness :
  (Z.to_nat (queries sample_busy.1) <= length (candidates sample_lines))%nat
  /\ (collect (U := latin1) (sample_busy.1, with_feed (sample_lines ++ []) sample_busy.2)).1
     = (collect (U := latin1)
          (sample_busy.1, with_feed (sample_lines ++ [lit "{ }"]) sample_busy.2)).1.
Proof.
  assert (Z.to_nat (queries sample_busy.1) <= length (candidates sample_lines))%nat as H
    by (vm_compute; lia).
  split; [exact H|].
  apply (proj2 (collect_needs_candidates (U := latin1) sample_busy.1 sample_busy.2)
           sample_lines [] [lit "{ }"] H).
Defined.

Lemma sample_collected_eq :
  collect (U := latin1) (sample_busy.1, sample_busy.2)
  = (Ret (records_of sample_collected.1), (sample_collected.2.1, sample_collected.2.2)).
Proof. vm_compute. reflexivity. Qed.

Lemma collect_reads_no_further_witness :
  0 <= queries sample_busy.1
  /\ collect (U := latin1) (sample_busy.1, sample_busy.2)
     = (Ret (records_of sample_collected.1), (sample_collected.2.1, sample_collected.2.2))
  /\ queries sample_collected.2.1 = 0
  /\ length (records_of sample_collected.1) = 3%nat.
Proof.
  assert (0 <= queries sample_busy.1) as H1 by (vm_compute; discriminate).
  split_and!; [exact H1|exact sample_collected_eq|..];
    apply (collect_reads_no_further (U := latin1) _ _ _ _ _ H1 sample_collected_eq).
Defined.

Lemma collect_again_is_empty_witness :
  collect (U := latin1) (sample_busy.1, sample_busy.2)
  = (Ret (records_of sample_collected.1), (sample_collected.2.1, sample_collected.2.2))
  /\ collect (U := latin1) (sample_collected.2.1, sample_collected.2.2)
     = (Ret [], (sample_collected.2.1, sample_collected.2.2)).
Proof.
  split; [exact sample_collected_eq|].
  exact (collect_again_is_empty (U := latin1) _ _ _ sample_collected_eq).
Defined.


